(** * quantpy: channels and tomography

    A shallow embedding of [quantpy/channel.py] and [quantpy/tomography.py].

    Python objects are records, attribute mutation is explicit state passing
    in a small state-and-exception monad (a raised exception keeps the
    mutations made before it, as in Python), Python sets of tags are
    [gset string], numpy arrays are lists of rows.

    Numbers: the entries of operators ([np.complex128]) are taken in an
    arbitrary commutative ring with exact arithmetic; the real-valued data
    of the tomograph ([np.float64]) are taken in the real numbers.  Rounding
    is therefore outside the model, except for the physical projection,
    which is also given in binary64 arithmetic. *)

From Stdlib Require Import List Arith PeanoNat ZArith Lia Ring Bool String.
From Stdlib Require Import Reals Lra.
From Stdlib Require Floats QArith.
From stdpp Require Import base gmap sets strings.
Import ListNotations.

Open Scope string_scope.
Open Scope list_scope.
Open Scope nat_scope.

(* ------------------------------------------------------------------------- *)
(** * Python exceptions and the state-and-exception monad *)

Inductive exn : Type :=
| ValueError (msg : string)
| AttributeError (attr : string)
| TypeError
| OverflowError
| DimensionError.

Inductive outcome (A : Type) : Type :=
| Ok (a : A)
| Raise (e : exn).
Arguments Ok {A} a.
Arguments Raise {A} e.

(** A method of an object whose attributes live in [S]: it returns a value or
    raises, and in both cases hands back the (possibly mutated) object. *)
Definition M (S A : Type) : Type := S -> outcome A * S.

Definition ret {S A} (a : A) : M S A := fun s => (Ok a, s).
Definition raise {S A} (e : exn) : M S A := fun s => (Raise e, s).
Definition bind {S A B} (m : M S A) (k : A -> M S B) : M S B :=
  fun s => match m s with
           | (Ok a, s') => k a s'
           | (Raise e, s') => (Raise e, s')
           end.
Definition get_self {S} : M S S := fun s => (Ok s, s).
Definition modify {S} (f : S -> S) : M S unit := fun s => (Ok tt, f s).
Definition lift {S A} (o : outcome A) : M S A := fun s => (o, s).

Declare Scope py_scope.
Delimit Scope py_scope with py.
Notation "'let*' x ':=' m 'in' k" := (bind m (fun x => k))
  (at level 10, x name, m at level 200, k at level 200) : py_scope.
Notation "'exec' m 'in' k" := (bind m (fun _ => k))
  (at level 10, m at level 200, k at level 200) : py_scope.

(** [for x in l: body(x)] *)
Fixpoint for_each {S A} (l : list A) (body : A -> M S unit) : M S unit :=
  match l with
  | [] => ret tt
  | x :: t => bind (body x) (fun _ => for_each t body)
  end.

(** Python [set.add] and [set.discard] on a set of tags. *)
Definition set_add (x : string) (s : gset string) : gset string := {[ x ]} ∪ s.
Definition set_discard (x : string) (s : gset string) : gset string := s ∖ {[ x ]}.

(** [int(np.log2(side) / 2)]: the floor of half the binary logarithm; the
    logarithm of 0 is minus infinity, which [int] refuses.  The logarithm is
    exact here; [np.log2] is a binary64 logarithm, exact at the powers of
    two, which next to a large power of two can round up to it (at
    [2 ^ 50 - 1] it gives 50), so that the value below is the code's at the
    powers of two and may differ from it elsewhere. *)
Definition n_qubits_of_side (side : nat) : outcome nat :=
  if side =? 0 then Raise OverflowError else Ok (Nat.log2 side / 2).

(* ------------------------------------------------------------------------- *)
(** * Operators over a commutative ring *)

(** The scalars of operator entries: the operations of a ring.  The ring
    laws are assumed where theorems need them. *)
Class Scalar (C : Type) : Type := {
  c0 : C;
  c1 : C;
  cadd : C -> C -> C;
  cmul : C -> C -> C;
  csub : C -> C -> C;
  copp : C -> C
}.

Declare Scope ring_scope.
Delimit Scope ring_scope with C.
Notation "x + y" := (cadd x y) : ring_scope.
Notation "x * y" := (cmul x y) : ring_scope.

Section Operators.

Context {C : Type} `{Scalar C}.

(** A two-dimensional array, as the list of its rows. *)
Definition mat : Type := list (list C).

Definition nrows (A : mat) : nat := length A.
Definition ncols (A : mat) : nat := length (hd [] A).
Definition shape (A : mat) : nat * nat := (nrows A, ncols A).

Definition get (A : mat) (i j : nat) : C := nth j (nth i A []) c0.

(** The [r] x [c] array whose entry [(i, j)] is [f i j]. *)
Definition mk (r c : nat) (f : nat -> nat -> C) : mat :=
  map (fun i => map (fun j => f i j) (seq 0 c)) (seq 0 r).

Definition wf (r c : nat) (A : mat) : Prop :=
  length A = r /\ Forall (fun row => length row = c) A.

Fixpoint sum_n (n : nat) (g : nat -> C) : C :=
  match n with
  | 0 => c0
  | S k => (sum_n k g + g k)%C
  end.

(** Modelled from the spec: the State Object layer ([quantpy/qobj.py],
    [quantpy/routines.py]) is not part of the sources; its algebra is the
    usual one: entrywise sum, scalar multiple, matrix product, Kronecker
    product, transpose, identity, partial trace.  The total functions below
    compute on whatever shapes they get; the checked versions further down
    raise the dimension error the spec attributes to that layer. *)
Definition zeros (r c : nat) : mat := mk r c (fun _ _ => c0).

Definition eye (d : nat) : mat := mk d d (fun i j => if i =? j then c1 else c0).

Definition madd (A B : mat) : mat :=
  mk (nrows A) (ncols A) (fun i j => (get A i j + get B i j)%C).

Definition mscale (k : C) (A : mat) : mat :=
  mk (nrows A) (ncols A) (fun i j => (k * get A i j)%C).

Definition mmul (A B : mat) : mat :=
  mk (nrows A) (ncols B)
     (fun i j => sum_n (ncols A) (fun k => (get A i k * get B k j)%C)).

Definition transpose (A : mat) : mat :=
  mk (ncols A) (nrows A) (fun i j => get A j i).

Definition kron (A B : mat) : mat :=
  mk (nrows A * nrows B) (ncols A * ncols B)
     (fun i j => (get A (i / nrows B) (j / ncols B)
                  * get B (i mod nrows B) (j mod ncols B))%C).

(** Modelled from the spec: [generate_single_entries(d)] of
    [quantpy/routines.py]: one operator per ordered pair of basis indices,
    with a single unit entry and zeros elsewhere. *)
Definition single_entry (d a b : nat) : mat :=
  mk d d (fun i j => if (i =? a) && (j =? b) then c1 else c0).

Definition generate_single_entries (d : nat) : list mat :=
  flat_map (fun a => map (fun b => single_entry d a b) (seq 0 d)) (seq 0 d).

(** The sum of a list of scalars. *)
Definition lsum (l : list C) : C := fold_right cadd c0 l.

(** A linear transformation of [d] x [d] operators: it returns [d] x [d]
    operators and commutes with sums and scalar multiples. *)
Definition linear_map (d : nat) (f : mat -> mat) : Prop :=
  (forall A, wf d d A -> wf d d (f A))
  /\ (forall A B, wf d d A -> wf d d B -> f (madd A B) = madd (f A) (f B))
  /\ (forall k A, wf d d A -> f (mscale k A) = mscale k (f A)).

(** The index pairs of the single-entry operators, in the order of
    [generate_single_entries], and the combination of single-entry operators
    with the entries of [rho] as coefficients (which is [rho] again). *)
Definition index_pairs (d : nat) : list (nat * nat) :=
  flat_map (fun a => map (fun b => (a, b)) (seq 0 d)) (seq 0 d).

Definition combination (d : nat) (rho : mat) (l : list (nat * nat)) : mat :=
  fold_right
    (fun ab acc =>
       madd (mscale (get rho (fst ab) (snd ab)) (single_entry d (fst ab) (snd ab))) acc)
    (zeros d d) l.

(** [A + B] and [A @ B] of the State Object layer. *)
Definition qadd (A B : mat) : outcome mat :=
  if (nrows A =? nrows B) && (ncols A =? ncols B)
  then Ok (madd A B) else Raise DimensionError.

Definition qmatmul (A B : mat) : outcome mat :=
  if ncols A =? nrows B then Ok (mmul A B) else Raise DimensionError.

(** Modelled from the spec: [A.ptrace(list(range(n, 2 * n)))] for an
    operator on [2 * n] qubits: the first [n] qubits are traced out and the
    operator on the remaining [n] qubits is returned. *)
Definition ptrace_keep_upper (n : nat) (A : mat) : outcome mat :=
  let d := 2 ^ n in
  if (nrows A =? d * d) && (ncols A =? d * d)
  then Ok (mk d d (fun p q => sum_n d (fun t => get A (t * d + p) (t * d + q))))
  else Raise DimensionError.

End Operators.

(* ------------------------------------------------------------------------- *)
(** * [quantpy/channel.py] *)

Section ChannelModel.

Context {C : Type} `{Scalar C}.

(** The attributes of a [Channel] object.  An attribute holding [None] is
    [None]; a transformation function is a pure function on operators. *)
Record Channel : Type := mkChannel {
  _types : gset string;
  _choi : option (@mat C);
  _func : option (@mat C -> @mat C);
  n_qubits : nat
}.

Definition with_types (f : gset string -> gset string) (self : Channel) : Channel :=
  mkChannel (f (_types self)) (_choi self) (_func self) (n_qubits self).
Definition with_choi (v : option (@mat C)) (self : Channel) : Channel :=
  mkChannel (_types self) v (_func self) (n_qubits self).
Definition with_func (v : option (@mat C -> @mat C)) (self : Channel) : Channel :=
  mkChannel (_types self) (_choi self) v (n_qubits self).
Definition with_n_qubits (v : nat) (self : Channel) : Channel :=
  mkChannel (_types self) (_choi self) (_func self) v.

(** The values [Channel(data, n_qubits)] can be given as [data]. *)
Inductive pydata : Type :=
| PyCallable (f : @mat C -> @mat C)
| PyNdarray (a : @mat C)
| PyQobj (q : @mat C)
| PyOther.

Definition callable (data : pydata) : bool :=
  match data with PyCallable _ => true | _ => false end.

Definition is_array_or_qobj (data : pydata) : bool :=
  match data with PyNdarray _ | PyQobj _ => true | _ => false end.

Definition msg_n_qubits : string :=
  "`n_qubits` argument is compulsory when using init with function".
Definition msg_format : string := "Invalid data format".

(** [Channel.__init__]: an exception leaves no object behind. *)
Definition Channel_init (data : pydata) (n_qubits : option nat) : outcome Channel :=
  match data with
  | PyCallable f =>
      match n_qubits with
      | None => Raise (ValueError msg_n_qubits)
      | Some n => Ok (mkChannel (set_add "func" ∅) None (Some f) n)
      end
  | PyNdarray a | PyQobj a =>
      match n_qubits_of_side (nrows a) with
      | Ok n => Ok (mkChannel (set_add "choi" ∅) (Some a) None n)
      | Raise e => Raise e
      end
  | PyOther => Raise (ValueError msg_format)
  end.

(** [Channel.set_func] *)
Definition set_func (data : @mat C -> @mat C) (n_qubits : nat) : M Channel unit :=
  (exec modify (with_types (set_add "func")) in
   exec modify (with_types (set_discard "choi")) in
   exec modify (with_func (Some data)) in
   modify (with_n_qubits n_qubits))%py.

(** [Channel.transform], with the way [self.choi] is read left open: the
    property getter and [transform] call each other. *)
Definition transform_with (read_choi : M Channel (option (@mat C)))
    (state : @mat C) : M Channel (@mat C) :=
  (let* self := get_self in
   if bool_decide ("func" ∈ _types self) then
     match _func self with
     | Some f => ret (f state)
     | None => raise TypeError
     end
   else
     let common_state := kron (transpose state) (eye (2 ^ n_qubits self)) in
     let* choi := read_choi in
     match choi with
     | None => raise TypeError
     | Some J =>
         let* prod := lift (qmatmul common_state J) in
         let* self' := get_self in
         lift (ptrace_keep_upper (n_qubits self') prod)
     end)%py.

(** What reading [self.choi] does once ['choi'] is in [self._types]. *)
Definition choi_cached : M Channel (option (@mat C)) :=
  (let* self := get_self in ret (_choi self))%py.

(** The body of the loop of the [choi] property getter:
    [self._choi += kron(Qobj(single_entry), self.transform(single_entry))].
    Inside the loop ['choi'] has already been added to [self._types], so the
    read of [self.choi] that [self.transform] may make there is the cached
    one. *)
Definition choi_step (single_entry : @mat C) : M Channel unit :=
  (let* cur := get_self in
   let* out := transform_with choi_cached single_entry in
   match _choi cur with
   | None => raise TypeError
   | Some acc =>
       let* acc' := lift (qadd acc (kron single_entry out)) in
       modify (with_choi (Some acc'))
   end)%py.

(** The [choi] property getter. *)
Definition choi_get : M Channel (option (@mat C)) :=
  (let* self := get_self in
   if bool_decide ("choi" ∈ _types self) then ret (_choi self)
   else
     exec modify (with_types (set_add "choi")) in
     exec modify (with_choi (Some (zeros (4 ^ n_qubits self) (4 ^ n_qubits self)))) in
     exec for_each (generate_single_entries (2 ^ n_qubits self)) choi_step in
     let* fin := get_self in
     ret (_choi fin))%py.

(** [Channel.transform] *)
Definition transform (state : @mat C) : M Channel (@mat C) :=
  transform_with choi_get state.

(** The [choi] property setter. *)
Definition choi_set (data : @mat C) : M Channel unit :=
  (exec modify (with_types (set_add "choi")) in
   exec modify (with_types (set_discard "func")) in
   exec modify (with_choi (Some data)) in
   let* n := lift (n_qubits_of_side (nrows data)) in
   modify (with_n_qubits n))%py.

(** At least one of the two representations is marked valid. *)
Definition has_repr (self : Channel) : Prop :=
  "func" ∈ _types self \/ "choi" ∈ _types self.

(** The spec's words for the Choi matrix of a transformation [f] of
    [n]-qubit operators: the sum over all single-entry basis operators [E] of
    [kron(E, f(E))], accumulated from the zero matrix in the order of the
    basis. *)
Definition choi_matrix (n : nat) (f : @mat C -> @mat C) : @mat C :=
  fold_left (fun acc E => madd acc (kron E (f E)))
            (generate_single_entries (2 ^ n)) (zeros (4 ^ n) (4 ^ n)).

(** The objects a program can hold: what a constructor returned, and what
    the methods leave behind, whether they return or raise. *)
Inductive reachable : Channel -> Prop :=
| reach_init data n self :
    Channel_init data n = Ok self -> reachable self
| reach_set_func self f n :
    reachable self -> reachable (snd (set_func f n self))
| reach_choi_get self :
    reachable self -> reachable (snd (choi_get self))
| reach_choi_set self data :
    reachable self -> reachable (snd (choi_set data self))
| reach_transform self state :
    reachable self -> reachable (snd (transform state self)).

End ChannelModel.

(* ------------------------------------------------------------------------- *)
(** * [quantpy/tomography.py] *)

(** Real vectors and matrices ([np.float64] arrays, idealised). *)
Definition rvec : Type := list R.
Definition rmat : Type := list (list R).

Definition rsum (v : rvec) : R := fold_right Rplus 0%R v.
Definition nsum (v : list nat) : nat := fold_right Nat.add 0 v.
Definition rdot (u v : rvec) : R := rsum (map (fun p => (fst p * snd p)%R) (combine u v)).
Definition rscale (k : R) (v : rvec) : rvec := map (fun x => (x * k)%R) v.
Definition rdivide (k : R) (v : rvec) : rvec := map (fun x => (x / k)%R) v.
Definition rmat_scale (k : R) (A : rmat) : rmat := map (rscale k) A.
Definition rmat_divide (k : R) (A : rmat) : rmat := map (rdivide k) A.
Definition rncols (A : rmat) : nat := length (hd [] A).

(** [A @ v] for a two-dimensional [A] and a one-dimensional [v]. *)
Definition matvec (A : rmat) (v : rvec) : outcome rvec :=
  if forallb (fun row => length row =? length v) A
  then Ok (map (fun row => rdot row v) A)
  else Raise DimensionError.

(** The pairs of entries an entrywise operation on two one-dimensional
    arrays works on: arrays of the same length go together entry by entry, an
    array of length one is broadcast. *)
Definition broadcast {A B : Type} (u : list A) (v : list B) : outcome (list (A * B)) :=
  if length u =? length v then Ok (combine u v)
  else match u, v with
       | [a], _ => Ok (map (fun b => (a, b)) v)
       | _, [b] => Ok (map (fun a => (a, b)) u)
       | _, _ => Raise DimensionError
       end.

(** [np.vstack((A, B))].  The width of an array is read off its first row,
    so an array without rows has width 0 here, whatever width numpy records
    for it. *)
Definition vstack (A B : rmat) : outcome rmat :=
  if rncols A =? rncols B then Ok (A ++ B)%list else Raise DimensionError.

(** [la.norm(v, ord=2)] *)
Definition norm2 (v : rvec) : R := sqrt (rsum (map (fun x => (x * x)%R) v)).

(** Modelled from the spec: the State Object as the tomograph sees it, with
    its qubit count [dim] and its Bloch vector [bloch]; [Qobj(v)] for a
    one-dimensional [v] of length [4 ^ n] is the state with Bloch vector [v]
    on [n] qubits. *)
Record Qobj : Type := mkQobj { dim : nat; bloch : rvec }.

Definition Qobj_of_bloch (v : rvec) : Qobj := mkQobj (Nat.log2 (length v) / 2) v.

(** Modelled from the spec: [SIGMA_I] of [quantpy/routines.py], the
    single-qubit identity operator. *)
Definition SIGMA_I : rmat := [[1; 0]; [0; 1]]%R.

(** Modelled from the spec: [Qobj(A).bloch] for a single-qubit operator [A]
    with real entries: half its traces against the Pauli operators, so that
    the first coordinate of a unit-trace operator is [1 / 2]. *)
Definition bloch_of_matrix_1q (A : rmat) : rvec :=
  let e (i j : nat) := nth j (nth i A []) 0%R in
  let a := e 0 0 in let b := e 0 1 in let c := e 1 0 in let d := e 1 1 in
  [ (a + d) / 2; (b + c) / 2; 0; (a - d) / 2 ]%R.

(** [_is_feasible] (its diagnostic print left out) *)
Definition _is_feasible (bloch_vec : rvec) : R :=
  let bloch_len := INR (length bloch_vec + 1) in
  (sqrt bloch_len - 1 - bloch_len * rsum (map (fun x => x * x) bloch_vec))%R.

(** [np.sqrt((2 ** dim - 1) / (4 ** dim))] *)
Definition max_norm (dim : nat) : R := sqrt ((2 ^ dim - 1) / 4 ^ dim)%R.

(** [if physical and norm(v) > max_norm: v *= max_norm / norm(v)], in exact
    arithmetic; [clip_f64] below is the same in binary64. *)
Definition clip (physical : bool) (max_norm : R) (v : rvec) : rvec :=
  if physical then
    if Rlt_dec max_norm (norm2 v) then rscale (max_norm / norm2 v) v else v
  else v.

Section TomographModel.

(** The collaborators that are not part of the sources. *)
Variable hs_dst trace_dst if_dst : Qobj -> Qobj -> R.
Variable generate_measurement_matrix : string -> nat -> outcome rmat.
Variable RNG : Type.
Variable multinomial : nat -> rvec -> M RNG (list nat).
Variable _left_inv : rmat -> outcome rmat.
(** [minimize(fun, x0, constraints=[{'type': 'ineq', 'fun': c}],
    method='SLSQP').x] *)
Variable minimize : (rvec -> outcome R) -> rvec -> (rvec -> R) -> outcome rvec.

(** The attributes of a [Tomograph]; the three set by [experiment] are
    absent ([None]) until then. *)
Record Tomograph : Type := mkTomograph {
  state : Qobj;
  dst : Qobj -> Qobj -> R;
  verbose : bool;
  POVM_matrix : option rmat;
  results : option (list nat);
  n_measurements : option nat
}.

(** The tomograph together with the global random generator of numpy. *)
Record World : Type := mkWorld { self_ : Tomograph; rng : RNG }.

Definition set_POVM_matrix (v : rmat) (t : Tomograph) : Tomograph :=
  mkTomograph (state t) (dst t) (verbose t) (Some v) (results t) (n_measurements t).
Definition set_results (v : list nat) (t : Tomograph) : Tomograph :=
  mkTomograph (state t) (dst t) (verbose t) (POVM_matrix t) (Some v) (n_measurements t).
Definition set_n_measurements (v : nat) (t : Tomograph) : Tomograph :=
  mkTomograph (state t) (dst t) (verbose t) (POVM_matrix t) (results t) (Some v).

Definition on_self (f : Tomograph -> Tomograph) : M World unit :=
  modify (fun w => mkWorld (f (self_ w)) (rng w)).

(** Reading an attribute that may not exist yet. *)
Definition attr {S A} (name : string) (field : S -> option A) : M S A :=
  fun s => match field s with
           | Some a => (Ok a, s)
           | None => (Raise (AttributeError name), s)
           end.

Definition draw {A} (m : M RNG A) : M World A :=
  fun w => let (r, g) := m (rng w) in (r, mkWorld (self_ w) g).

Inductive dst_arg : Type :=
| DstName (name : string)
| DstFun (f : Qobj -> Qobj -> R).

Definition msg_dst : string := "Invalid value for argument `dst`".

(** [Tomograph.__init__] *)
Definition Tomograph_init (state : Qobj) (dst : dst_arg) (verbose : bool)
  : outcome Tomograph :=
  match dst with
  | DstName name =>
      if String.eqb name "hs" then Ok (mkTomograph state hs_dst verbose None None None)
      else if String.eqb name "trace" then Ok (mkTomograph state trace_dst verbose None None None)
      else if String.eqb name "if" then Ok (mkTomograph state if_dst verbose None None None)
      else Raise (ValueError msg_dst)
  | DstFun f => Ok (mkTomograph state f verbose None None None)
  end.

(** [Tomograph.experiment] *)
Definition experiment (n_meas : nat) (POVM : string) (warm_start : bool)
  : M World unit :=
  (let* w := get_self in
   let st := state (self_ w) in
   let* POVM_mat := lift (generate_measurement_matrix POVM (dim st)) in
   let* prod := lift (matvec POVM_mat (bloch st)) in
   let probas := rscale (2 ^ dim st) prod in
   let* res := draw (multinomial n_meas probas) in
   if warm_start then
     let* old_mat := attr "POVM_matrix" (fun w => POVM_matrix (self_ w)) in
     let* old_n := attr "n_measurements" (fun w => n_measurements (self_ w)) in
     let* stacked := lift (vstack (rmat_scale (INR old_n) old_mat)
                                  (rmat_scale (INR n_meas) POVM_mat)) in
     let* old_n' := attr "n_measurements" (fun w => n_measurements (self_ w)) in
     exec on_self (set_POVM_matrix
                     (rmat_divide (INR (old_n' + n_meas)) stacked)) in
     let* old_res := attr "results" (fun w => results (self_ w)) in
     exec on_self (set_results (old_res ++ res)%list) in
     let* old_n'' := attr "n_measurements" (fun w => n_measurements (self_ w)) in
     on_self (set_n_measurements (old_n'' + n_meas))
   else
     exec on_self (set_POVM_matrix POVM_mat) in
     exec on_self (set_results res) in
     on_self (set_n_measurements n_meas))%py.

(** [Tomograph._point_estimate_lin].  With counts that add up to 0 the code
    divides by zero and goes on with NaN; the real numbers have no such
    value, and the model follows the code for a positive total only. *)
Definition _point_estimate_lin (physical : bool) : M Tomograph Qobj :=
  (let* res := attr "results" results in
   let frequencies := map (fun k => (INR k / INR (nsum res))%R) res in
   let* mat := attr "POVM_matrix" POVM_matrix in
   let* inv := lift (_left_inv mat) in
   let* prod := lift (matvec inv frequencies) in
   let* self := get_self in
   let bloch_vec := rdivide (2 ^ dim (state self)) prod in
   let bound := max_norm (dim (state self)) in
   ret (Qobj_of_bloch
          (match bloch_vec with
           | [] => []
           | x :: rest => x :: clip physical bound rest
           end)))%py.

(** [Tomograph._neg_log_likelihood], with [eps] at its default (the
    diagnostic print left out) *)
Definition _neg_log_likelihood (bloch_vec : rvec) : M Tomograph R :=
  (let eps := (/ 10 ^ 10)%R in
   let* self := get_self in
   let bloch_vec := (1 / 2 ^ dim (state self))%R :: bloch_vec in
   let* mat := attr "POVM_matrix" POVM_matrix in
   let* prod := lift (matvec mat bloch_vec) in
   let probas := rscale (2 ^ dim (state self)) prod in
   let* res := attr "results" results in
   let* terms := lift (broadcast res probas) in
   let log_likelihood :=
     rsum (map (fun p => (INR (fst p) * ln (snd p + eps))%R) terms) in
   ret (- log_likelihood)%R)%py.

(** The starting point [Qobj(SIGMA_I / 2).bloch[1:]] of the optimiser. *)
Definition mle_x0 : rvec := tl (bloch_of_matrix_1q (rmat_divide 2 SIGMA_I)).

(** [Tomograph._point_estimate_mle] *)
Definition _point_estimate_mle (physical : bool) : M Tomograph Qobj :=
  (let x0 := mle_x0 in
   let* self := get_self in
   let* opt_x := lift (minimize (fun v => fst (_neg_log_likelihood v self))
                                x0 _is_feasible) in
   let bound := max_norm (dim (state self)) in
   let bloch_vec := clip physical bound opt_x in
   ret (Qobj_of_bloch ((1 / 2 ^ dim (state self))%R :: bloch_vec)))%py.

(** [Tomograph.point_estimate] *)
Definition point_estimate (method : string) (physical : bool) : M Tomograph Qobj :=
  if String.eqb method "lin" then _point_estimate_lin physical
  else _point_estimate_mle physical.

(** What one call of [experiment] draws: the matrix of the scheme, the
    probabilities, the counts, and the generator afterwards. *)
Definition draws (n_meas : nat) (POVM : string) (w w' : World)
    (M2 : rmat) (r2 : list nat) : Prop :=
  exists prod,
    generate_measurement_matrix POVM (dim (state (self_ w))) = Ok M2
    /\ matvec M2 (bloch (state (self_ w))) = Ok prod
    /\ multinomial n_meas (rscale (2 ^ dim (state (self_ w))) prod) (rng w)
       = (Ok r2, rng w').

(** All three attributes are set, there is one count per row of the matrix,
    and the counts add up to the stored total. *)
Definition counts_consistent (t : Tomograph) : Prop :=
  exists A r m, POVM_matrix t = Some A /\ results t = Some r
                /\ n_measurements t = Some m
                /\ length r = length A /\ nsum r = m.

(** A run of calls [experiment(n, POVM, warm_start)], one after the other. *)
Definition experiments (calls : list (nat * string * bool)) : M World unit :=
  for_each calls (fun c => experiment (fst (fst c)) (snd (fst c)) (snd c)).

End TomographModel.

Arguments mkWorld {RNG} _ _.
Arguments self_ {RNG} _.
Arguments rng {RNG} _.

(** The spec's words for the matrix stored by a warm start: the
    measurement-count-weighted average of the old and the new matrix, with
    weights [m1 / (m1 + m2)] and [m2 / (m1 + m2)]. *)
Definition weighted_average (m1 : nat) (M1 : rmat) (m2 : nat) (M2 : rmat) : rmat :=
  map (fun rows =>
         map (fun p => (fst p * (INR m1 / INR (m1 + m2))
                        + snd p * (INR m2 / INR (m1 + m2)))%R)
             (combine (fst rows) (snd rows)))
      (combine M1 M2).

(** What the code stores instead: the rows of the old matrix scaled by
    [m1 / (m1 + m2)], followed by the rows of the new one scaled by
    [m2 / (m1 + m2)]. *)
Definition weighted_stack (m1 : nat) (M1 : rmat) (m2 : nat) (M2 : rmat) : rmat :=
  (rmat_scale (INR m1 / INR (m1 + m2)) M1
   ++ rmat_scale (INR m2 / INR (m1 + m2)) M2)%list.

(* ------------------------------------------------------------------------- *)
(** * Concrete inputs *)

(** Integer entries: a commutative ring that computes. *)
Definition Z_scalar : Scalar Z :=
  {| c0 := 0%Z; c1 := 1%Z; cadd := Z.add; cmul := Z.mul; csub := Z.sub; copp := Z.opp |}.
#[local] Existing Instance Z_scalar.

(** A single-qubit operator and a linear map on single-qubit operators that
    is neither trace preserving nor completely positive. *)
Definition rho_ex : @mat Z := [[1; 2]; [3; 4]]%Z.
Definition f_ex (A : @mat Z) : @mat Z := madd (transpose A) (mscale 5%Z A).

Definition ch_func_ex : @Channel Z := mkChannel (set_add "func" ∅) None (Some f_ex) 1.
Definition ch_both_ex : @Channel Z := snd (choi_get ch_func_ex).
Definition choi_ex : @mat Z :=
  [[6; 0; 0; 5]; [0; 0; 1; 0]; [0; 1; 0; 0]; [5; 0; 0; 6]]%Z.

(** A single-qubit tomography session with stand-ins for the collaborators:
    the projective scheme measures along [+] and [-]; the draw puts every
    trial on the first outcome (the certain one for the state below); the
    optimiser returns its starting point. *)
Definition plus_state : Qobj := mkQobj 1 [1 / 2; 1 / 2; 0; 0]%R.
Definition proj_matrix_ex : rmat := [[1 / 2; 1 / 2; 0; 0]; [1 / 2; - (1 / 2); 0; 0]]%R.

Definition generate_ex (POVM : string) (n : nat) : outcome rmat :=
  if String.eqb POVM "proj" then Ok proj_matrix_ex
  else Raise (ValueError "Incorrect POVM name").

Definition multinomial_ex (n : nat) (pvals : rvec) : M unit (list nat) :=
  match pvals with
  | [] => if n =? 0 then ret [] else raise (ValueError "pvals is empty")
  | _ :: rest => ret (n :: repeat 0 (length rest))
  end.

Definition left_inv_ex (A : rmat) : outcome rmat :=
  Ok [[1; 1]; [3; -1]; [0; 0]; [0; 0]]%R.

Definition minimize_ex (obj : rvec -> outcome R) (x0 : rvec) (cons : rvec -> R)
  : outcome rvec := Ok x0.

Definition dst_ex (a b : Qobj) : R := 0%R.

Definition tomo_fresh_ex : Tomograph := mkTomograph plus_state dst_ex false None None None.
Definition tomo_once_ex : Tomograph :=
  mkTomograph plus_state dst_ex false (Some proj_matrix_ex) (Some [1; 0]) (Some 1).

(** A two-qubit session: the maximally mixed state, after one measurement
    with the scheme whose only outcome is the identity. *)
Definition tomo_2q_ex : Tomograph :=
  mkTomograph (mkQobj 2 ((1 / 4)%R :: repeat 0%R 15)) dst_ex false
              (Some [1%R :: repeat 0%R 15]) (Some [1]) (Some 1).

(* ------------------------------------------------------------------------- *)
(** * [quantpy/channel.py]: the derived channels *)

Section ChannelViews.

Context {C : Type} `{Scalar C}.

(** Complex conjugation of the scalars. *)
Variable cconj : C -> C.

(** Modelled from the spec: [A.conj()] and [A.H] of the State Object layer,
    the entrywise conjugate and the conjugate transpose. *)
Definition mconj (A : @mat C) : @mat C :=
  mk (nrows A) (ncols A) (fun i j => cconj (get A i j)).

Definition adjoint (A : @mat C) : @mat C := mconj (transpose A).

(** [self.__class__(view(self.choi))]: the property [choi] is read (and
    computed and cached if need be), a view of it is taken, and a new channel
    is constructed from the view, with [n_qubits] left out.  When the read
    yields [None] the view is an attribute of [None]. *)
Definition derived_channel (attr_name : string) (view : @mat C -> @mat C)
  : M (@Channel C) (@Channel C) :=
  (let* choi := choi_get in
   match choi with
   | None => raise (AttributeError attr_name)
   | Some J => lift (Channel_init (PyQobj (view J)) None)
   end)%py.

(** [Channel.T] *)
Definition Channel_T : M (@Channel C) (@Channel C) := derived_channel "T" transpose.

(** [Channel.H] *)
Definition Channel_H : M (@Channel C) (@Channel C) := derived_channel "H" adjoint.

(** [Channel.conj] *)
Definition Channel_conj : M (@Channel C) (@Channel C) := derived_channel "conj" mconj.

End ChannelViews.

(** The transformation whose Choi matrix is the transpose of that of [f]. *)
Definition transposed_map {C : Type} `{Scalar C} (f : @mat C -> @mat C)
  : @mat C -> @mat C :=
  fun A => transpose (f (transpose A)).

(* ------------------------------------------------------------------------- *)
(** * [quantpy/tomography.py]: states of a session *)

(** The three attributes set by [experiment] are all absent or all present. *)
Definition coherent (t : Tomograph) : Prop :=
  (POVM_matrix t = None /\ results t = None /\ n_measurements t = None)
  \/ (exists A r m, POVM_matrix t = Some A /\ results t = Some r
                    /\ n_measurements t = Some m).

(** [Tomograph.bootstrap_state]: its body is [pass]. *)
Definition bootstrap_state (state : Qobj) (n_measurements n_repeats : nat)
    (method dst : string) : M Tomograph unit := ret tt.

(** A single-qubit channel given by a Choi matrix, and the conjugation of
    integers. *)
Definition ch_choi_ex : @Channel Z := mkChannel (set_add "choi" ∅) (Some choi_ex) None 1.
Definition conj_ex (x : Z) : Z := x.

(** A run of calls of [experiment] that all return, with the counts each
    call drew, in call order. *)
Section Runs.

Variable generate_measurement_matrix : string -> nat -> outcome rmat.
Variable RNG : Type.
Variable multinomial : nat -> rvec -> M RNG (list nat).

Inductive run_draws :
  World RNG -> list (nat * string * bool) -> list (list nat) -> World RNG -> Prop :=
| run_done w : run_draws w [] [] w
| run_call w c rest M2 r2 w1 rs w' :
    experiment generate_measurement_matrix RNG multinomial
               (fst (fst c)) (snd (fst c)) (snd c) w = (Ok tt, w1) ->
    draws generate_measurement_matrix RNG multinomial
          (fst (fst c)) (snd (fst c)) w w1 M2 r2 ->
    run_draws w1 rest rs w' ->
    run_draws w (c :: rest) (r2 :: rs) w'.

End Runs.

(* ------------------------------------------------------------------------- *)
(** * The physical projection in binary64 arithmetic *)












(* ------------------------------------------------------------------------- *)
(** * Facts about the monad *)

Lemma for_each_preserves {S A} (P : S -> Prop) (body : A -> M S unit) (l : list A) :
  (forall x s, P s -> P (snd (body x s))) ->
  forall s, P s -> P (snd (for_each l body s)).
Proof.
  intros Hbody. induction l as [|x t IH]; intros s Hs; simpl.
  - exact Hs.
  - unfold bind. specialize (Hbody x s Hs).
    destruct (body x s) as [[u|e] s1]; simpl in *.
    + apply IH, Hbody.
    + exact Hbody.
Qed.

Lemma log2_pow4 (n : nat) : Nat.log2 (4 ^ n) / 2 = n.
Proof.
  replace (4 ^ n) with (2 ^ (n * 2)).
  - rewrite Nat.log2_pow2 by lia. apply Nat.div_mul. discriminate.
  - rewrite Nat.mul_comm, Nat.pow_mul_r. reflexivity.
Qed.

Lemma pow4_pos (n : nat) : 4 ^ n <> 0.
Proof. apply Nat.pow_nonzero. discriminate. Qed.

Lemma n_qubits_of_side_pow4 (n : nat) : n_qubits_of_side (4 ^ n) = Ok n.
Proof.
  unfold n_qubits_of_side.
  destruct (Nat.eqb_spec (4 ^ n) 0) as [E|_].
  - destruct (pow4_pos n E).
  - rewrite log2_pow4. reflexivity.
Qed.

(* ------------------------------------------------------------------------- *)
(** * The representations of a channel *)

Section ChannelState.

Context {C : Type} `{Scalar C}.

Ltac run := unfold bind, get_self, modify, ret, raise, lift; simpl.
Ltac cases :=
  repeat match goal with
         | |- context [match ?x with _ => _ end] => destruct x; simpl
         end.

Lemma in_set_add (x : string) (s : gset string) : x ∈ set_add x s.
Proof.
  unfold set_add. apply elem_of_union. left. apply elem_of_singleton. reflexivity.
Qed.

Lemma in_set_add_other (x y : string) (s : gset string) : x ∈ s -> x ∈ set_add y s.
Proof. intros Hin. unfold set_add. apply elem_of_union. right. exact Hin. Qed.

Lemma in_set_add_discard (x y : string) (s : gset string) :
  x <> y -> x ∈ set_discard y (set_add x s).
Proof.
  intros Hxy. unfold set_discard. apply elem_of_difference.
  split; [apply in_set_add|].
  intros Hin. apply elem_of_singleton in Hin. contradiction.
Qed.

Lemma notin_set_discard (x : string) (s : gset string) : x ∉ set_discard x s.
Proof.
  unfold set_discard. intros Hin. apply elem_of_difference in Hin as [_ Hn].
  apply Hn, elem_of_singleton. reflexivity.
Qed.

(** Reading the cached Choi matrix changes nothing, so a [transform] that
    reads it that way changes nothing either. *)
Lemma transform_cached_frame (state : @mat C) (self : Channel) :
  snd (transform_with choi_cached state self) = self.
Proof.
  unfold transform_with, choi_cached. run.
  destruct (bool_decide ("func" ∈ _types self)).
  - destruct (_func self); reflexivity.
  - cases; reflexivity.
Qed.

Lemma choi_step_types (E : @mat C) (self : Channel) :
  _types (snd (choi_step E self)) = _types self.
Proof.
  pose proof (transform_cached_frame E self) as Hfr.
  unfold choi_step, bind, get_self. cbv beta iota.
  destruct (transform_with choi_cached E self) as [[out|e] s1];
    simpl in Hfr; rewrite Hfr; [|reflexivity].
  run. cases; reflexivity.
Qed.

Lemma choi_loop_types (l : list (@mat C)) (self : Channel) :
  _types (snd (for_each l choi_step self)) = _types self.
Proof.
  apply (for_each_preserves (fun s => _types s = _types self)); [|reflexivity].
  intros E s Hs. rewrite choi_step_types. exact Hs.
Qed.

(** Once ['choi'] is a valid tag, reading the property is reading the cache. *)
Lemma choi_get_cached (self : Channel) :
  "choi" ∈ _types self -> choi_get self = (Ok (_choi self), self).
Proof.
  intros Hin. unfold choi_get. run.
  rewrite bool_decide_eq_true_2 by exact Hin. reflexivity.
Qed.

(** Inside the loop of the getter ['choi'] is a valid tag, so the call of
    [self.transform] there is the call modelled in [choi_step]. *)
Lemma transform_in_loop (state : @mat C) (self : Channel) :
  "choi" ∈ _types self ->
  transform state self = transform_with choi_cached state self.
Proof.
  intros Hin. unfold transform, transform_with. run.
  destruct (bool_decide ("func" ∈ _types self)); [reflexivity|].
  rewrite (choi_get_cached self Hin). reflexivity.
Qed.

(** Whatever happens in the getter, ['choi'] is a valid tag afterwards, the
    other tags are as before, and a returned value is the cached one. *)
Lemma choi_get_types (self : Channel) :
  _types (snd (choi_get self)) =
  if bool_decide ("choi" ∈ _types self) then _types self
  else set_add "choi" (_types self).
Proof.
  unfold choi_get. run.
  destruct (bool_decide ("choi" ∈ _types self)); [reflexivity|].
  match goal with |- context [for_each ?l choi_step ?s] =>
    pose proof (choi_loop_types l s) as Hl;
    destruct (for_each l choi_step s) as [[u|e] s1] end; simpl in *; exact Hl.
Qed.

Lemma choi_get_returns (self self' : Channel) (v : option (@mat C)) :
  choi_get self = (Ok v, self') -> v = _choi self' /\ "choi" ∈ _types self'.
Proof.
  intros Hget. pose proof (choi_get_types self) as Hty. rewrite Hget in Hty.
  simpl in Hty. split.
  - revert Hget. unfold choi_get. run.
    destruct (bool_decide ("choi" ∈ _types self)).
    + intros [= <- <-]. reflexivity.
    + match goal with |- context [for_each ?l choi_step ?s] =>
        destruct (for_each l choi_step s) as [[u|e] s1] end; simpl.
      * intros [= <- <-]. reflexivity.
      * discriminate.
  - rewrite Hty. case_bool_decide; [assumption | apply in_set_add].
Qed.

Lemma transform_frame (state : @mat C) (self : Channel) :
  has_repr self -> snd (transform state self) = self.
Proof.
  intros Hrep. unfold transform, transform_with. run.
  case_bool_decide as Hf.
  - destruct (_func self); reflexivity.
  - destruct Hrep as [Hin|Hin]; [contradiction|].
    rewrite (choi_get_cached self Hin).
    cases; reflexivity.
Qed.

Lemma set_func_state (f : @mat C -> @mat C) (n : nat) (self : Channel) :
  set_func f n self =
  (Ok tt, mkChannel (set_discard "choi" (set_add "func" (_types self)))
                    (_choi self) (Some f) n).
Proof. reflexivity. Qed.

Lemma choi_set_types (data : @mat C) (self : Channel) :
  _types (snd (choi_set data self)) = set_discard "func" (set_add "choi" (_types self))
  /\ _choi (snd (choi_set data self)) = Some data
  /\ _func (snd (choi_set data self)) = _func self.
Proof.
  unfold choi_set. run. destruct (n_qubits_of_side (nrows data)); simpl; auto.
Qed.

Lemma reachable_has_repr (self : @Channel C) : reachable self -> has_repr self.
Proof.
  induction 1 as [data n self Hinit | self f n _ IH | self _ IH
                 | self data _ IH | self state _ IH].
  - destruct data as [f|a|a|]; simpl in Hinit.
    + destruct n; inversion Hinit; subst. left. apply in_set_add.
    + destruct (n_qubits_of_side (nrows a)); inversion Hinit; subst.
      right. apply in_set_add.
    + destruct (n_qubits_of_side (nrows a)); inversion Hinit; subst.
      right. apply in_set_add.
    + discriminate.
  - left. rewrite set_func_state. simpl. apply in_set_add_discard. discriminate.
  - right. rewrite choi_get_types. case_bool_decide; [assumption | apply in_set_add].
  - right. destruct (choi_set_types data self) as [-> _].
    apply in_set_add_discard. discriminate.
  - rewrite transform_frame; assumption.
Qed.

End ChannelState.

Section ChannelClaims.

Context {C : Type} `{Scalar C}.

Ltac run := unfold bind, get_self, modify, ret, raise, lift; simpl.

(** C8. [Channel(data, n_qubits)] raises the value error about [n_qubits]
    exactly when [data] is callable and [n_qubits] is omitted, raises the
    value error about the data format exactly when [data] is neither callable
    nor an array nor a [Qobj], and for an array or [Qobj] whose side is
    [4 ^ n] returns a channel with [n] qubits whose Choi representation, and
    only it, is valid and holds the data. *)
Theorem Channel_init_outcomes (data : @pydata C) (nq : option nat) :
  (Channel_init data nq = Raise (ValueError msg_n_qubits)
   <-> callable data = true /\ nq = None)
  /\ (Channel_init data nq = Raise (ValueError msg_format)
      <-> callable data = false /\ is_array_or_qobj data = false)
  /\ (forall a n, data = PyNdarray a \/ data = PyQobj a -> nrows a = 4 ^ n ->
      exists self, Channel_init data nq = Ok self
                   /\ n_qubits self = n
                   /\ _choi self = Some a
                   /\ "choi" ∈ _types self
                   /\ "func" ∉ _types self).
Proof.
  split; [|split].
  - destruct data as [f|a|a|]; simpl.
    + destruct nq; split; try discriminate; try tauto.
      intros [_ Hn]. discriminate.
    + unfold n_qubits_of_side. destruct (nrows a =? 0); split;
        try discriminate; intros [Hc _]; discriminate.
    + unfold n_qubits_of_side. destruct (nrows a =? 0); split;
        try discriminate; intros [Hc _]; discriminate.
    + split; [discriminate | intros [Hc _]; discriminate].
  - destruct data as [f|a|a|]; simpl.
    + destruct nq; split; try discriminate; intros [Hc _]; discriminate.
    + unfold n_qubits_of_side. destruct (nrows a =? 0); split;
        try discriminate; intros [_ Hc]; discriminate.
    + unfold n_qubits_of_side. destruct (nrows a =? 0); split;
        try discriminate; intros [_ Hc]; discriminate.
    + split; auto.
  - intros a n Hdata Hside.
    assert (Hinit : Channel_init data nq = Ok (mkChannel (set_add "choi" ∅) (Some a) None n)).
    { destruct Hdata as [-> | ->]; simpl; rewrite Hside, n_qubits_of_side_pow4;
        reflexivity. }
    eexists. split; [exact Hinit|]. simpl.
    split; [reflexivity | split; [reflexivity | split]].
    + apply in_set_add.
    + unfold set_add. intros Hin. apply elem_of_union in Hin as [Hin|Hin].
      * apply elem_of_singleton in Hin. discriminate.
      * exact (not_elem_of_empty _ Hin).
Qed.

(** C5. Every channel a program can hold has at least one valid
    representation.  [set_func] marks the function valid and the Choi matrix
    invalid, and [transform] then applies the new function; assigning [choi]
    marks the Choi matrix valid and the function invalid, and [transform]
    then computes from the assigned matrix alone. *)
Theorem representations_valid :
  (forall self : @Channel C, reachable self -> has_repr self)
  /\ (forall (self : @Channel C) f n,
        let self' := snd (set_func f n self) in
        ("func" ∈ _types self' /\ ("choi" ∉ _types self')
         /\ forall state, transform state self' = (Ok (f state), self')))
  /\ (forall (self : @Channel C) data,
        let self' := snd (choi_set data self) in
        ("choi" ∈ _types self' /\ ("func" ∉ _types self')
         /\ forall state,
              transform state self' =
              (match qmatmul (kron (transpose state) (eye (2 ^ n_qubits self'))) data with
               | Ok prod => ptrace_keep_upper (n_qubits self') prod
               | Raise e => Raise e
               end, self'))).
Proof.
  split; [exact reachable_has_repr | split].
  - intros self f n self'. subst self'. rewrite set_func_state. simpl.
    split; [|split].
    + apply in_set_add_discard. discriminate.
    + apply notin_set_discard.
    + intros state. unfold transform, transform_with. run.
      rewrite bool_decide_eq_true_2; [reflexivity|].
      apply in_set_add_discard. discriminate.
  - intros self data self'.
    destruct (choi_set_types data self) as (Hty & Hchoi & _). fold self' in Hty, Hchoi.
    assert (Hin : "choi" ∈ _types self').
    { rewrite Hty. apply in_set_add_discard. discriminate. }
    assert (Hout : "func" ∉ _types self').
    { rewrite Hty. apply notin_set_discard. }
    split; [exact Hin | split; [exact Hout|]].
    intros state. unfold transform, transform_with. run.
    rewrite bool_decide_eq_false_2 by exact Hout.
    rewrite (choi_get_cached self' Hin), Hchoi.
    destruct (qmatmul _ data); simpl; [|reflexivity].
    destruct (ptrace_keep_upper _ _); reflexivity.
Qed.

(** C9. When a read of the [choi] property returns, ['choi'] is a valid tag
    and the returned matrix is the cached one; an immediate second read is a
    plain read of the cache: it returns the same matrix and leaves the
    channel as it is.  A first read on a channel without a valid Choi matrix
    adds the tag ['choi'] and changes no other tag. *)
Theorem choi_read_twice (self self1 : @Channel C) (v : option (@mat C)) :
  choi_get self = (Ok v, self1) ->
  choi_get self1 = (Ok v, self1)
  /\ choi_get self1 = choi_cached self1
  /\ _choi self1 = v
  /\ "choi" ∈ _types self1
  /\ ("choi" ∉ _types self -> _types self1 = set_add "choi" (_types self)).
Proof.
  intros Hget. destruct (choi_get_returns _ _ _ Hget) as [Hv Hin].
  pose proof (choi_get_types self) as Hty. rewrite Hget in Hty. simpl in Hty.
  split; [|split; [|split; [|split]]].
  - rewrite (choi_get_cached self1 Hin), Hv. reflexivity.
  - rewrite (choi_get_cached self1 Hin). reflexivity.
  - symmetry. exact Hv.
  - exact Hin.
  - intros Hout. rewrite Hty, bool_decide_eq_false_2 by exact Hout. reflexivity.
Qed.

(** C10. [transform] leaves a channel with a valid representation exactly as
    it was, whether it returns or raises: the valid tags, the cached Choi
    matrix, the function and the qubit count are those of before.  On a
    channel whose function is valid this needs nothing else, so no Choi
    matrix is computed or cached there. *)
Theorem transform_no_mutation (self : @Channel C) (state : @mat C) :
  (reachable self -> snd (transform state self) = self)
  /\ ("func" ∈ _types self ->
      snd (transform state self) = self
      /\ fst (transform state self)
         = match _func self with Some f => Ok (f state) | None => Raise TypeError end).
Proof.
  split.
  - intros Hreach. apply transform_frame, reachable_has_repr, Hreach.
  - intros Hin. split; [apply transform_frame; left; exact Hin|].
    unfold transform, transform_with. run.
    rewrite bool_decide_eq_true_2 by exact Hin.
    destruct (_func self); reflexivity.
Qed.

End ChannelClaims.

Lemma choi_get_ex : choi_get ch_func_ex = (Ok (Some choi_ex), ch_both_ex).
Proof.
  unfold ch_both_ex.
  assert (E : fst (choi_get ch_func_ex) = Ok (Some choi_ex)) by (vm_compute; reflexivity).
  destruct (choi_get ch_func_ex) as [r s]. simpl in *. rewrite E. reflexivity.
Defined.

Lemma choi_read_twice_witness :
  choi_get ch_both_ex = (Ok (Some choi_ex), ch_both_ex)
  /\ choi_get ch_both_ex = choi_cached ch_both_ex
  /\ _choi ch_both_ex = Some choi_ex
  /\ "choi" ∈ _types ch_both_ex
  /\ ("choi" ∉ _types ch_func_ex -> _types ch_both_ex = set_add "choi" (_types ch_func_ex)).
Proof. exact (choi_read_twice ch_func_ex ch_both_ex (Some choi_ex) choi_get_ex). Defined.

(* ------------------------------------------------------------------------- *)
(** * Experiments *)

Lemma length_rmat_scale (k : R) (A : rmat) : length (rmat_scale k A) = length A.
Proof. apply length_map. Qed.

Lemma length_rmat_divide (k : R) (A : rmat) : length (rmat_divide k A) = length A.
Proof. apply length_map. Qed.

Lemma rncols_rmat_scale (k : R) (A : rmat) : rncols (rmat_scale k A) = rncols A.
Proof. destruct A as [|row A]; [reflexivity|]. apply length_map. Qed.

Lemma matvec_length (A : rmat) (v prod : rvec) :
  matvec A v = Ok prod -> length prod = length A.
Proof.
  unfold matvec. destruct (forallb _ A); [|discriminate].
  intros [= <-]. apply length_map.
Qed.

Lemma nsum_app (u v : list nat) : nsum (u ++ v) = nsum u + nsum v.
Proof. induction u as [|x u IH]; simpl; [reflexivity | rewrite IH; lia]. Qed.

Lemma rmat_divide_scale (k d : R) (A : rmat) :
  rmat_divide d (rmat_scale k A) = rmat_scale (k / d) A.
Proof.
  unfold rmat_divide, rmat_scale, rdivide, rscale.
  rewrite map_map. apply map_ext. intros row.
  rewrite map_map. apply map_ext. intros x. unfold Rdiv. ring.
Qed.

Section Experiments.

Variable generate_measurement_matrix : string -> nat -> outcome rmat.
Variable RNG : Type.
Variable multinomial : nat -> rvec -> M RNG (list nat).

Local Abbreviation experiment_ := (experiment generate_measurement_matrix RNG multinomial).
Local Abbreviation draws_ := (draws generate_measurement_matrix RNG multinomial).

Ltac run := unfold bind, get_self, modify, ret, raise, lift, attr, draw, on_self; simpl.

Lemma experiment_fresh (n_meas : nat) (POVM : string) (w w' : World RNG) :
  experiment_ n_meas POVM false w = (Ok tt, w') ->
  exists M2 r2, draws_ n_meas POVM w w' M2 r2
    /\ self_ w' = mkTomograph (state (self_ w)) (dst (self_ w)) (verbose (self_ w))
                              (Some M2) (Some r2) (Some n_meas).
Proof.
  destruct w as [[st ds vb pm rs nm] g0].
  unfold experiment, draws. run.
  destruct (generate_measurement_matrix POVM _) as [M2|e] eqn:Hgen; simpl; [|discriminate].
  destruct (matvec M2 _) as [prod|e] eqn:Hmv; simpl; [|discriminate].
  destruct (multinomial n_meas _ g0) as [[r2|e] g] eqn:Hdraw; simpl; [|discriminate].
  intros [= <-]. simpl. exists M2, r2. split; [|reflexivity].
  exists prod. auto.
Qed.

Lemma experiment_warm (n_meas : nat) (POVM : string) (w w' : World RNG) :
  experiment_ n_meas POVM true w = (Ok tt, w') ->
  exists M1 r1 m1 M2 r2,
    POVM_matrix (self_ w) = Some M1 /\ results (self_ w) = Some r1
    /\ n_measurements (self_ w) = Some m1
    /\ draws_ n_meas POVM w w' M2 r2
    /\ rncols M1 = rncols M2
    /\ self_ w' = mkTomograph (state (self_ w)) (dst (self_ w)) (verbose (self_ w))
         (Some (rmat_divide (INR (m1 + n_meas))
                  (rmat_scale (INR m1) M1 ++ rmat_scale (INR n_meas) M2)))
         (Some (r1 ++ r2)) (Some (m1 + n_meas)).
Proof.
  destruct w as [[st ds vb pm rs nm] g0].
  unfold experiment, draws. run.
  destruct (generate_measurement_matrix POVM _) as [M2|e] eqn:Hgen; simpl; [|discriminate].
  destruct (matvec M2 _) as [prod|e] eqn:Hmv; simpl; [|discriminate].
  destruct (multinomial n_meas _ g0) as [[r2|e] g] eqn:Hdraw; simpl; [|discriminate].
  destruct pm as [M1|]; simpl; [|discriminate].
  destruct nm as [m1|]; simpl; [|discriminate].
  unfold vstack. rewrite !rncols_rmat_scale.
  destruct (Nat.eqb_spec (rncols M1) (rncols M2)) as [Hcols|_]; simpl; [|discriminate].
  destruct rs as [r1|]; simpl; [|discriminate].
  intros [= <-]. simpl. exists M1, r1, m1, M2, r2.
  split; [reflexivity|]. split; [reflexivity|]. split; [reflexivity|].
  split; [exists prod; auto|]. split; [exact Hcols | reflexivity].
Qed.

Lemma experiment_warm_returns (n_meas : nat) (POVM : string) (w : World RNG)
    (M1 M2 : rmat) (r1 r2 : list nat) (m1 : nat) (prod : rvec) (g : RNG) :
  POVM_matrix (self_ w) = Some M1 -> results (self_ w) = Some r1 ->
  n_measurements (self_ w) = Some m1 ->
  generate_measurement_matrix POVM (dim (state (self_ w))) = Ok M2 ->
  matvec M2 (bloch (state (self_ w))) = Ok prod ->
  multinomial n_meas (rscale (2 ^ dim (state (self_ w))) prod) (rng w) = (Ok r2, g) ->
  rncols M1 = rncols M2 ->
  experiment_ n_meas POVM true w =
  (Ok tt, mkWorld (mkTomograph (state (self_ w)) (dst (self_ w)) (verbose (self_ w))
         (Some (rmat_divide (INR (m1 + n_meas))
                  (rmat_scale (INR m1) M1 ++ rmat_scale (INR n_meas) M2)))
         (Some (r1 ++ r2)) (Some (m1 + n_meas))) g).
Proof.
  destruct w as [[st ds vb pm rs nm] g0]. simpl.
  intros -> -> -> Hgen Hmv Hdraw Hcols.
  unfold experiment. run. rewrite Hgen. simpl. rewrite Hmv. simpl.
  rewrite Hdraw. simpl.
  unfold vstack. rewrite !rncols_rmat_scale, Hcols, Nat.eqb_refl. reflexivity.
Qed.

Lemma weighted_stack_eq (m1 m2 : nat) (M1 M2 : rmat) :
  rmat_divide (INR (m1 + m2)) (rmat_scale (INR m1) M1 ++ rmat_scale (INR m2) M2)
  = weighted_stack m1 M1 m2 M2.
Proof.
  unfold weighted_stack. rewrite <- !rmat_divide_scale.
  unfold rmat_divide at 1. rewrite map_app. reflexivity.
Qed.

(** C2 (as amended). A warm start on a tomograph holding the matrix [M1],
    the counts [r1] and the total [m1], which generates the matrix [M2] with
    as many columns and draws the counts [r2], returns and stores: the matrix
    whose rows are those of [M1] scaled by [m1 / (m1 + m2)] followed by those
    of [M2] scaled by [m2 / (m1 + m2)]; the counts [r1] followed by [r2]; and
    the total [m1 + m2]. *)
Theorem warm_start_stacks (m2 : nat) (POVM : string) (w : World RNG)
    (M1 M2 : rmat) (r1 r2 : list nat) (m1 : nat) (prod : rvec) (g : RNG) :
  POVM_matrix (self_ w) = Some M1 -> results (self_ w) = Some r1 ->
  n_measurements (self_ w) = Some m1 ->
  generate_measurement_matrix POVM (dim (state (self_ w))) = Ok M2 ->
  matvec M2 (bloch (state (self_ w))) = Ok prod ->
  multinomial m2 (rscale (2 ^ dim (state (self_ w))) prod) (rng w) = (Ok r2, g) ->
  rncols M1 = rncols M2 ->
  0 < m1 + m2 ->
  exists w', experiment_ m2 POVM true w = (Ok tt, w')
    /\ POVM_matrix (self_ w') = Some (weighted_stack m1 M1 m2 M2)
    /\ results (self_ w') = Some (r1 ++ r2)
    /\ n_measurements (self_ w') = Some (m1 + m2)
    /\ rng w' = g.
Proof.
  intros HM Hr Hm Hgen Hmv Hdraw Hcols _.
  eexists. split.
  - apply (experiment_warm_returns m2 POVM w M1 M2 r1 r2 m1 prod g); assumption.
  - simpl. rewrite weighted_stack_eq. auto.
Qed.

Lemma counts_after_fresh (n_meas : nat) (POVM : string) (w w' : World RNG) :
  (forall n p g r g', multinomial n p g = (Ok r, g') -> length r = length p /\ nsum r = n) ->
  experiment_ n_meas POVM false w = (Ok tt, w') ->
  counts_consistent (self_ w').
Proof.
  intros Hmulti Hrun.
  destruct (experiment_fresh _ _ _ _ Hrun) as (M2 & r2 & (prod & _ & Hmv & Hdraw) & ->).
  destruct (Hmulti _ _ _ _ _ Hdraw) as [Hlen Hsum].
  exists M2, r2, n_meas. simpl. repeat (split; [reflexivity|]). split; [|exact Hsum].
  rewrite Hlen. unfold rscale. rewrite length_map. exact (matvec_length _ _ _ Hmv).
Qed.

Lemma counts_after_warm (n_meas : nat) (POVM : string) (w w' : World RNG) :
  (forall n p g r g', multinomial n p g = (Ok r, g') -> length r = length p /\ nsum r = n) ->
  experiment_ n_meas POVM true w = (Ok tt, w') ->
  counts_consistent (self_ w) ->
  counts_consistent (self_ w')
  /\ exists r1 m1 M2 r2,
       results (self_ w) = Some r1 /\ n_measurements (self_ w) = Some m1
       /\ draws_ n_meas POVM w w' M2 r2
       /\ results (self_ w') = Some (r1 ++ r2)
       /\ n_measurements (self_ w') = Some (m1 + n_meas)
       /\ nsum r2 = n_meas.
Proof.
  intros Hmulti Hrun (A & r & m & HA & Hr & Hm & Hlen & Hsum).
  destruct (experiment_warm _ _ _ _ Hrun)
    as (M1 & r1 & m1 & M2 & r2 & HM1 & Hr1 & Hm1 & Hdraws & _ & Hself).
  rewrite HA in HM1. rewrite Hr in Hr1. rewrite Hm in Hm1.
  injection HM1 as <-. injection Hr1 as <-. injection Hm1 as <-.
  pose proof Hdraws as (prod & _ & Hmv & Hdraw).
  destruct (Hmulti _ _ _ _ _ Hdraw) as [Hlen2 Hsum2].
  assert (Hrows : length r2 = length M2).
  { rewrite Hlen2. unfold rscale. rewrite length_map. exact (matvec_length _ _ _ Hmv). }
  split.
  - rewrite Hself. eexists _, _, _. simpl. repeat (split; [reflexivity|]). split.
    + rewrite length_rmat_divide, !length_app, !length_rmat_scale. lia.
    + rewrite nsum_app. lia.
  - exists r, m, M2, r2. rewrite Hself. simpl. auto 10.
Qed.

Lemma draw_counts (n_meas : nat) (POVM : string) (w w' : World RNG)
    (M2 : rmat) (r2 : list nat) :
  (forall n p g r g', multinomial n p g = (Ok r, g') -> length r = length p /\ nsum r = n) ->
  draws_ n_meas POVM w w' M2 r2 -> length r2 = length M2 /\ nsum r2 = n_meas.
Proof.
  intros Hmulti (prod & _ & Hmv & Hdraw).
  destruct (Hmulti _ _ _ _ _ Hdraw) as [Hlen Hsum]. split; [|exact Hsum].
  rewrite Hlen. unfold rscale. rewrite length_map. exact (matvec_length _ _ _ Hmv).
Qed.

Local Abbreviation run_draws_ := (run_draws generate_measurement_matrix RNG multinomial).
Local Abbreviation experiments_ := (experiments generate_measurement_matrix RNG multinomial).

(** A run of warm starts on a tomograph that holds consistent data. *)
Lemma warm_run (rest : list (nat * string * bool)) :
  (forall n p g r g', multinomial n p g = (Ok r, g') -> length r = length p /\ nsum r = n) ->
  forall (w w' : World RNG) (A0 : rmat) (r0 : list nat) (m0 : nat),
    Forall (fun c => snd c = true) rest ->
    experiments_ rest w = (Ok tt, w') ->
    POVM_matrix (self_ w) = Some A0 -> results (self_ w) = Some r0 ->
    n_measurements (self_ w) = Some m0 ->
    length r0 = length A0 -> nsum r0 = m0 ->
    exists A rs,
      run_draws_ w rest rs w'
      /\ POVM_matrix (self_ w') = Some A
      /\ results (self_ w') = Some (r0 ++ concat rs)
      /\ n_measurements (self_ w') = Some (m0 + nsum (map (fun c => fst (fst c)) rest))
      /\ length (r0 ++ concat rs) = length A
      /\ Forall2 (fun c r => nsum r = fst (fst c)) rest rs.
Proof.
  intros Hmulti. unfold experiments.
  induction rest as [|[[n p] warm] rest IH]; intros w w' A0 r0 m0 Hall; simpl.
  - unfold ret. intros [= <-] HA Hr Hm Hlen Hsum.
    exists A0, []. simpl. rewrite app_nil_r, Nat.add_0_r.
    split; [constructor|]. auto.
  - unfold bind.
    destruct (experiment_ n p warm w) as [[[]|e] w1] eqn:Hrun; [|discriminate].
    intros Hrest HA Hr Hm Hlen Hsum.
    inversion Hall as [|c l Hwarm Hall']; subst. simpl in Hwarm. subst warm.
    destruct (experiment_warm _ _ _ _ Hrun)
      as (M1 & r1 & m1 & M2 & r2 & HM1 & Hr1 & Hm1 & Hdraws & _ & Hself).
    rewrite HA in HM1. rewrite Hr in Hr1. rewrite Hm in Hm1.
    injection HM1 as <-. injection Hr1 as <-. injection Hm1 as <-.
    destruct (draw_counts _ _ _ _ _ _ Hmulti Hdraws) as [Hlen2 Hsum2].
    destruct (IH w1 w'
                (rmat_divide (INR (nsum r0 + n))
                   (rmat_scale (INR (nsum r0)) A0 ++ rmat_scale (INR n) M2))
                (r0 ++ r2) (nsum r0 + n) Hall' Hrest)
      as (A & rs & Hruns & HA' & Hr' & Hm' & Hlen' & Hf2);
      try (rewrite Hself; reflexivity).
    + rewrite length_rmat_divide, !length_app, !length_rmat_scale. lia.
    + rewrite nsum_app. lia.
    + exists A, (r2 :: rs). simpl.
      split; [apply (run_call _ _ _ w (n, p, true) rest M2 r2 w1 rs w'); assumption|].
      split; [exact HA'|].
      split; [rewrite Hr', app_assoc; reflexivity|].
      split; [rewrite Hm'; f_equal; lia|].
      split; [rewrite app_assoc; exact Hlen'|].
      constructor; [exact Hsum2 | exact Hf2].
Qed.

(** C4. If [np.random.multinomial(n, pvals)] returns one count per entry of
    [pvals] and counts that add up to [n], then:
    - a fresh call of [experiment] that returns stores the matrix it
      generated, the counts it drew and its number of measurements; there is
      one count per row and the counts add up to that number;
    - a warm start that returns on a tomograph with consistent data stores
      the old counts followed by the counts it drew and the old total plus
      its number of measurements; again there is one stored count per row of
      the stored matrix and the stored counts add up to the stored total;
    - after a fresh call followed by warm starts the stored counts are the
      draws of all the calls concatenated in call order, the stored total is
      the sum of the numbers of measurements of all the calls, each draw
      adds up to the number of its call, and there is one count per row;
    - after any run of calls that starts with a fresh one (or on consistent
      data) the stored data are consistent;
    - after a run of warm starts on consistent data the stored counts are the
      old ones followed by the draws in call order and the total is the old
      total plus the numbers of all the calls. *)
Theorem experiment_counts :
  (forall n p g r g', multinomial n p g = (Ok r, g') -> length r = length p /\ nsum r = n) ->
  (forall n_meas POVM (w w' : World RNG),
     experiment_ n_meas POVM false w = (Ok tt, w') ->
     exists M2 r2,
       draws_ n_meas POVM w w' M2 r2
       /\ POVM_matrix (self_ w') = Some M2
       /\ results (self_ w') = Some r2
       /\ n_measurements (self_ w') = Some n_meas
       /\ length r2 = length M2 /\ nsum r2 = n_meas)
  /\ (forall n_meas POVM (w w' : World RNG),
        experiment_ n_meas POVM true w = (Ok tt, w') ->
        counts_consistent (self_ w) ->
        exists M1 r1 m1 M2 r2,
          POVM_matrix (self_ w) = Some M1 /\ results (self_ w) = Some r1
          /\ n_measurements (self_ w) = Some m1
          /\ draws_ n_meas POVM w w' M2 r2
          /\ POVM_matrix (self_ w')
             = Some (rmat_divide (INR (m1 + n_meas))
                       (rmat_scale (INR m1) M1 ++ rmat_scale (INR n_meas) M2))
          /\ results (self_ w') = Some (r1 ++ r2)
          /\ n_measurements (self_ w') = Some (m1 + n_meas)
          /\ nsum r2 = n_meas
          /\ length (r1 ++ r2) = length M1 + length M2
          /\ nsum (r1 ++ r2) = m1 + n_meas)
  /\ (forall n0 p0 rest (w w' : World RNG),
        Forall (fun c => snd c = true) rest ->
        experiments_ ((n0, p0, false) :: rest) w = (Ok tt, w') ->
        exists A rs,
          run_draws_ w ((n0, p0, false) :: rest) rs w'
          /\ POVM_matrix (self_ w') = Some A
          /\ results (self_ w') = Some (concat rs)
          /\ n_measurements (self_ w')
             = Some (nsum (map (fun c => fst (fst c)) ((n0, p0, false) :: rest)))
          /\ length (concat rs) = length A
          /\ nsum (concat rs) = nsum (map (fun c => fst (fst c)) ((n0, p0, false) :: rest))
          /\ Forall2 (fun c r => nsum r = fst (fst c)) ((n0, p0, false) :: rest) rs)
  /\ (forall calls (w w' : World RNG),
        experiments_ calls w = (Ok tt, w') ->
        match calls with
        | [] => counts_consistent (self_ w)
        | c :: _ => snd c = false \/ counts_consistent (self_ w)
        end ->
        counts_consistent (self_ w'))
  /\ (forall calls (w w' : World RNG),
        experiments_ calls w = (Ok tt, w') ->
        Forall (fun c => snd c = true) calls ->
        counts_consistent (self_ w) ->
        exists r0 m0 A rs,
          results (self_ w) = Some r0 /\ n_measurements (self_ w) = Some m0
          /\ run_draws_ w calls rs w'
          /\ POVM_matrix (self_ w') = Some A
          /\ results (self_ w') = Some (r0 ++ concat rs)
          /\ n_measurements (self_ w') = Some (m0 + nsum (map (fun c => fst (fst c)) calls))
          /\ length (r0 ++ concat rs) = length A
          /\ nsum (concat rs) = nsum (map (fun c => fst (fst c)) calls)).
Proof.
  intros Hmulti.
  assert (Hsums : forall (calls : list (nat * string * bool)) (rs : list (list nat)),
            Forall2 (fun c r => nsum r = fst (fst c)) calls rs ->
            nsum (concat rs) = nsum (map (fun c => fst (fst c)) calls)).
  { intros calls rs Hf2. induction Hf2 as [|c r calls rs Hc _ IH]; simpl; [reflexivity|].
    rewrite nsum_app, Hc, IH. reflexivity. }
  assert (Hfresh : forall n_meas POVM (w w' : World RNG),
     experiment_ n_meas POVM false w = (Ok tt, w') ->
     exists M2 r2,
       draws_ n_meas POVM w w' M2 r2
       /\ POVM_matrix (self_ w') = Some M2
       /\ results (self_ w') = Some r2
       /\ n_measurements (self_ w') = Some n_meas
       /\ length r2 = length M2 /\ nsum r2 = n_meas).
  { intros n_meas POVM w w' Hrun.
    destruct (experiment_fresh _ _ _ _ Hrun) as (M2 & r2 & Hdraws & Hself).
    destruct (draw_counts _ _ _ _ _ _ Hmulti Hdraws) as [Hlen Hsum].
    exists M2, r2. rewrite Hself. simpl. auto 10. }
  assert (Hstep : forall n_meas POVM warm (w w' : World RNG),
     experiment_ n_meas POVM warm w = (Ok tt, w') ->
     (warm = true -> counts_consistent (self_ w)) ->
     counts_consistent (self_ w')).
  { intros n_meas POVM [|] w w' Hrun Hpre.
    - apply (counts_after_warm _ _ _ _ Hmulti Hrun). auto.
    - apply (counts_after_fresh _ _ _ _ Hmulti Hrun). }
  split; [exact Hfresh|]. split; [|split; [|split]].
  - intros n_meas POVM w w' Hrun (A & r & m & HA & Hr & Hm & Hlen & Hsum).
    destruct (experiment_warm _ _ _ _ Hrun)
      as (M1 & r1 & m1 & M2 & r2 & HM1 & Hr1 & Hm1 & Hdraws & _ & Hself).
    destruct (draw_counts _ _ _ _ _ _ Hmulti Hdraws) as [Hlen2 Hsum2].
    rewrite HA in HM1. rewrite Hr in Hr1. rewrite Hm in Hm1.
    injection HM1 as <-. injection Hr1 as <-. injection Hm1 as <-.
    exists A, r, m, M2, r2. rewrite Hself. simpl.
    rewrite length_app, nsum_app.
    repeat (split; [reflexivity || assumption || lia|]). lia.
  - intros n0 p0 rest w w' Hall Hrun. unfold experiments in Hrun. simpl in Hrun.
    unfold bind in Hrun.
    destruct (experiment_ n0 p0 false w) as [[[]|e] w1] eqn:Hfirst; [|discriminate].
    destruct (Hfresh _ _ _ _ Hfirst)
      as (M2 & r2 & Hdraws & HM & Hr & Hm & Hlen & Hsum).
    destruct (warm_run rest Hmulti w1 w' M2 r2 n0 Hall Hrun HM Hr Hm Hlen Hsum)
      as (A & rs & Hruns & HA' & Hr' & Hm' & Hlen' & Hf2).
    assert (Hf2' : Forall2 (fun c r => nsum r = fst (fst c))
                     ((n0, p0, false) :: rest) (r2 :: rs))
      by (constructor; assumption).
    exists A, (r2 :: rs).
    split; [apply (run_call _ _ _ w (n0, p0, false) rest M2 r2 w1 rs w'); assumption|].
    split; [exact HA'|]. split; [exact Hr'|]. split; [exact Hm'|].
    split; [exact Hlen'|]. split; [apply Hsums, Hf2' | exact Hf2'].
  - unfold experiments. induction calls as [|[[n p] warm] rest IH]; intros w w'; simpl.
    + unfold ret. intros [= <-]. auto.
    + unfold bind.
      destruct (experiment_ n p warm w) as [[[]|e] w1] eqn:Hrun; [|discriminate].
      intros Hrest Hpre. apply (IH w1 w' Hrest).
      assert (Hc : counts_consistent (self_ w1)).
      { apply (Hstep _ _ _ _ _ Hrun). intros ->. destruct Hpre; [discriminate|assumption]. }
      destruct rest; auto.
  - intros calls w w' Hrun Hall (A0 & r0 & m0 & HA & Hr & Hm & Hlen & Hsum).
    destruct (warm_run calls Hmulti w w' A0 r0 m0 Hall Hrun HA Hr Hm Hlen Hsum)
      as (A & rs & Hruns & HA' & Hr' & Hm' & Hlen' & Hf2).
    exists r0, m0, A, rs. auto 10 using Hsums.
Qed.

End Experiments.

Lemma nsum_repeat_0 (k : nat) : nsum (repeat 0 k) = 0.
Proof. induction k as [|k IH]; simpl; [reflexivity | exact IH]. Qed.

(** The stand-in for the draw honours the contract of a multinomial draw. *)
Lemma multinomial_ex_contract (n : nat) (p : rvec) (g : unit) (r : list nat) (g' : unit) :
  multinomial_ex n p g = (Ok r, g') -> length r = length p /\ nsum r = n.
Proof.
  destruct p as [|x rest]; simpl.
  - destruct (Nat.eqb_spec n 0) as [->|_]; [|discriminate].
    intros [= <- _]. auto.
  - intros [= <- _]. simpl. rewrite repeat_length. split; [reflexivity|].
    rewrite nsum_repeat_0. lia.
Qed.

Lemma warm_start_ex :
  experiment generate_ex unit multinomial_ex 1 "proj" true (mkWorld tomo_once_ex tt)
  = (Ok tt,
     mkWorld (mkTomograph plus_state dst_ex false
                (Some (rmat_divide (INR (1 + 1))
                         (rmat_scale (INR 1) proj_matrix_ex
                          ++ rmat_scale (INR 1) proj_matrix_ex)))
                (Some ([1; 0] ++ [1; 0])) (Some (1 + 1))) tt).
Proof.
  apply (experiment_warm_returns generate_ex unit multinomial_ex 1 "proj"
           (mkWorld tomo_once_ex tt) proj_matrix_ex proj_matrix_ex [1; 0] [1; 0] 1
           (map (fun row => rdot row (bloch plus_state)) proj_matrix_ex) tt);
    reflexivity.
Qed.

(** C2, as stated, fails: after one experiment with one measurement on the
    single-qubit state [plus_state], a warm start with one more measurement
    stores a matrix of four rows, not the two-row weighted average of the old
    and the new matrix. *)
Lemma warm_start_not_weighted_average :
  exists w',
    experiment generate_ex unit multinomial_ex 1 "proj" true (mkWorld tomo_once_ex tt)
    = (Ok tt, w')
    /\ POVM_matrix (self_ w')
       <> Some (weighted_average 1 proj_matrix_ex 1 proj_matrix_ex).
Proof.
  eexists. split; [exact warm_start_ex|].
  simpl. intros E. apply (f_equal (option_map (@length (list R)))) in E.
  simpl in E. discriminate.
Qed.

Lemma warm_start_stacks_witness :
  exists w',
    experiment generate_ex unit multinomial_ex 1 "proj" true (mkWorld tomo_once_ex tt)
    = (Ok tt, w')
    /\ POVM_matrix (self_ w') = Some (weighted_stack 1 proj_matrix_ex 1 proj_matrix_ex)
    /\ results (self_ w') = Some ([1; 0] ++ [1; 0])
    /\ n_measurements (self_ w') = Some (1 + 1)
    /\ rng w' = tt.
Proof.
  apply (warm_start_stacks generate_ex unit multinomial_ex 1 "proj"
           (mkWorld tomo_once_ex tt) proj_matrix_ex proj_matrix_ex [1; 0] [1; 0] 1
           (map (fun row => rdot row (bloch plus_state)) proj_matrix_ex) tt);
    try reflexivity.
  simpl. lia.
Defined.

Lemma experiment_counts_witness :
  exists A rs,
    run_draws generate_ex unit multinomial_ex (mkWorld tomo_fresh_ex tt)
      [(5, "proj", false); (2, "proj", true)] rs
      (snd (experiments generate_ex unit multinomial_ex
              [(5, "proj", false); (2, "proj", true)] (mkWorld tomo_fresh_ex tt)))
    /\ POVM_matrix (self_ (snd (experiments generate_ex unit multinomial_ex
              [(5, "proj", false); (2, "proj", true)] (mkWorld tomo_fresh_ex tt))))
       = Some A
    /\ results (self_ (snd (experiments generate_ex unit multinomial_ex
              [(5, "proj", false); (2, "proj", true)] (mkWorld tomo_fresh_ex tt))))
       = Some (concat rs)
    /\ n_measurements (self_ (snd (experiments generate_ex unit multinomial_ex
              [(5, "proj", false); (2, "proj", true)] (mkWorld tomo_fresh_ex tt))))
       = Some (nsum (map (fun c => fst (fst c)) [(5, "proj", false); (2, "proj", true)]))
    /\ length (concat rs) = length A
    /\ nsum (concat rs)
       = nsum (map (fun c => fst (fst c)) [(5, "proj", false); (2, "proj", true)])
    /\ Forall2 (fun c r => nsum r = fst (fst c))
         [(5, "proj", false); (2, "proj", true)] rs.
Proof.
  apply (proj1 (proj2 (proj2
           (experiment_counts generate_ex unit multinomial_ex multinomial_ex_contract)))
           5 "proj" [(2, "proj", true)] (mkWorld tomo_fresh_ex tt)).
  - repeat constructor.
  - reflexivity.
Defined.

(* ------------------------------------------------------------------------- *)
(** * Point estimates *)

Open Scope R_scope.

Lemma rsum_sq_nonneg (v : rvec) : 0 <= rsum (map (fun x => x * x) v).
Proof.
  induction v as [|x v IH]; simpl; [lra|].
  pose proof (Rle_0_sqr x) as Hx. unfold Rsqr in Hx. lra.
Qed.


Lemma norm2_nonneg (v : rvec) : 0 <= norm2 v.
Proof. apply sqrt_pos. Qed.


Lemma max_norm_nonneg (n : nat) : 0 <= max_norm n.
Proof. apply sqrt_pos. Qed.



Lemma clip_off (m : R) (v : rvec) : clip false m v = v.
Proof. reflexivity. Qed.


Lemma mle_x0_zero : mle_x0 = [0; 0; 0].
Proof.
  unfold mle_x0, bloch_of_matrix_1q, SIGMA_I, rmat_divide, rdivide. simpl.
  repeat (f_equal; try lra).
Qed.

#[local] Arguments clip : simpl never.

Section PointEstimates.

Variable _left_inv : rmat -> outcome rmat.
Variable minimize : (rvec -> outcome R) -> rvec -> (rvec -> R) -> outcome rvec.

Local Abbreviation point_estimate_ := (point_estimate _left_inv minimize).

Ltac run := unfold bind, get_self, modify, ret, raise, lift, attr; simpl.

(** The two estimators read the tomograph without changing it, and the flag
    [physical] only decides whether the raw coordinates are clipped. *)
Lemma lin_shape (t : Tomograph) :
  exists r : outcome rvec, forall physical,
    _point_estimate_lin _left_inv physical t
    = (match r with
       | Ok raw =>
           Ok (Qobj_of_bloch
                 (match raw with
                  | [] => []
                  | x :: rest => x :: clip physical (max_norm (dim (state t))) rest
                  end))
       | Raise e => Raise e
       end, t).
Proof.
  unfold _point_estimate_lin. run.
  destruct (results t) as [res|]; [|exists (Raise (AttributeError "results")); reflexivity].
  destruct (POVM_matrix t) as [A|]; [|exists (Raise (AttributeError "POVM_matrix")); reflexivity].
  simpl. destruct (_left_inv A) as [inv|e]; [|exists (Raise e); reflexivity].
  simpl. destruct (matvec inv _) as [prod|e]; [|exists (Raise e); reflexivity].
  simpl. exists (Ok (rdivide (2 ^ dim (state t)) prod)). reflexivity.
Qed.

Lemma mle_shape (t : Tomograph) (physical : bool) :
  _point_estimate_mle minimize physical t
  = (match minimize (fun v => fst (_neg_log_likelihood v t)) [0; 0; 0] _is_feasible with
     | Ok x =>
         Ok (Qobj_of_bloch
               (1 / 2 ^ dim (state t) :: clip physical (max_norm (dim (state t))) x))
     | Raise e => Raise e
     end, t).
Proof.
  unfold _point_estimate_mle. run. rewrite mle_x0_zero.
  destruct (minimize _ _ _); reflexivity.
Qed.


(** Both estimators return whenever the collaborators they call do. *)
Lemma point_estimate_returns (t : Tomograph) (physical : bool) :
  (forall x, minimize (fun v => fst (_neg_log_likelihood v t)) [0; 0; 0] _is_feasible = Ok x ->
     exists q, point_estimate_ "mle" physical t = (Ok q, t))
  /\ (forall res A inv prod,
        results t = Some res -> POVM_matrix t = Some A -> _left_inv A = Ok inv ->
        matvec inv (map (fun k => INR k / INR (nsum res)) res) = Ok prod ->
        exists q, point_estimate_ "lin" physical t = (Ok q, t)).
Proof.
  split.
  - intros x Hx. unfold point_estimate. simpl. rewrite mle_shape, Hx. eauto.
  - intros res A inv prod Hres HA Hinv Hprod.
    unfold point_estimate, _point_estimate_lin. run.
    rewrite Hres, HA. simpl. rewrite Hinv. simpl. rewrite Hprod. simpl. eauto.
Qed.

End PointEstimates.


(** C6 (what the code does). A method key other than ['lin'], here ['svd'],
    is not refused: [point_estimate] runs the maximum-likelihood estimator,
    whatever the collaborators and the tomograph, and on an experimented
    tomograph it returns an estimate.  The constructor, for its part, does
    refuse the key ['svd'] for [dst] with a value error. *)
Theorem unknown_method_runs_mle :
  (forall _left_inv minimize physical t,
     point_estimate _left_inv minimize "svd" physical t
     = _point_estimate_mle minimize physical t)
  /\ (exists q, point_estimate left_inv_ex minimize_ex "svd" true tomo_once_ex
                = (Ok q, tomo_once_ex))
  /\ (forall hs_dst trace_dst if_dst state verbose,
        Tomograph_init hs_dst trace_dst if_dst state (DstName "svd") verbose
        = Raise (ValueError msg_dst)).
Proof.
  split; [reflexivity | split; [|reflexivity]].
  change (point_estimate left_inv_ex minimize_ex "svd" true tomo_once_ex)
    with (_point_estimate_mle minimize_ex true tomo_once_ex).
  rewrite mle_shape. unfold minimize_ex. eauto.
Qed.

(** C7 (what the code does). The starting point handed to the optimiser is
    the all-zero vector of length 3, whatever the qubit count of the true
    state; for two qubits the coordinates to optimise are 15, and the
    objective raises a dimension error at the starting point. *)
Theorem mle_initial_guess_length_3 :
  (forall minimize physical t,
     _point_estimate_mle minimize physical t
     = (match minimize (fun v => fst (_neg_log_likelihood v t)) [0; 0; 0] _is_feasible with
        | Ok x =>
            Ok (Qobj_of_bloch
                  (1 / 2 ^ dim (state t) :: clip physical (max_norm (dim (state t))) x))
        | Raise e => Raise e
        end, t))
  /\ dim (state tomo_2q_ex) = 2%nat
  /\ length mle_x0 = 3%nat
  /\ (4 ^ dim (state tomo_2q_ex) - 1 = 15)%nat
  /\ fst (_neg_log_likelihood mle_x0 tomo_2q_ex) = Raise DimensionError.
Proof.
  split; [intros minimize physical t; apply mle_shape|]. rewrite mle_x0_zero.
  repeat split.
Qed.

Close Scope R_scope.

(* ------------------------------------------------------------------------- *)
(** * The Choi matrix of a linear map *)

Lemma divmod_block (d t p : nat) :
  p < d -> (t * d + p) / d = t /\ (t * d + p) mod d = p.
Proof.
  intros Hp. assert (Hd : d <> 0) by lia. split.
  - rewrite Nat.div_add_l by exact Hd. rewrite Nat.div_small by exact Hp. lia.
  - rewrite Nat.add_comm, Nat.Div0.mod_add. apply Nat.mod_small, Hp.
Qed.

Lemma block_bound (d t p : nat) : t < d -> p < d -> t * d + p < d * d.
Proof. intros Ht Hp. nia. Qed.

Lemma pow4_square (n : nat) : 4 ^ n = 2 ^ n * 2 ^ n.
Proof.
  replace 4 with (2 * 2) by reflexivity. apply Nat.pow_mul_l.
Qed.

Lemma pow2_pos (n : nat) : 0 < 2 ^ n.
Proof. pose proof (Nat.pow_nonzero 2 n). lia. Qed.

Lemma nth_map_seq {A : Type} (F : nat -> A) (n i : nat) (d : A) :
  i < n -> nth i (map F (seq 0 n)) d = F i.
Proof.
  intros Hi. rewrite (nth_indep _ d (F 0)) by (rewrite length_map, length_seq; exact Hi).
  rewrite map_nth, seq_nth by exact Hi. reflexivity.
Qed.

Section Arrays.

Context {C : Type} `{Scalar C}.

Lemma length_mk (r c : nat) (f : nat -> nat -> C) : length (mk r c f) = r.
Proof. unfold mk. rewrite length_map, length_seq. reflexivity. Qed.

Lemma nth_mk (r c : nat) (f : nat -> nat -> C) (i : nat) :
  i < r -> nth i (mk r c f) [] = map (fun j => f i j) (seq 0 c).
Proof.
  intros Hi. unfold mk.
  exact (nth_map_seq (fun i => map (fun j => f i j) (seq 0 c)) r i [] Hi).
Qed.

Lemma get_mk (r c : nat) (f : nat -> nat -> C) (i j : nat) :
  i < r -> j < c -> get (mk r c f) i j = f i j.
Proof.
  intros Hi Hj. unfold get. rewrite nth_mk by exact Hi.
  exact (nth_map_seq (fun j => f i j) c j c0 Hj).
Qed.

Lemma wf_mk (r c : nat) (f : nat -> nat -> C) : wf r c (mk r c f).
Proof.
  split; [apply length_mk|]. unfold mk. apply List.Forall_forall.
  intros row Hin. apply in_map_iff in Hin as (i & <- & _).
  rewrite length_map, length_seq. reflexivity.
Qed.

Lemma wf_nrows (r c : nat) (A : @mat C) : wf r c A -> nrows A = r.
Proof. intros [Hr _]. exact Hr. Qed.

Lemma wf_ncols (r c : nat) (A : @mat C) : wf r c A -> 0 < r -> ncols A = c.
Proof.
  intros [Hr Hc] Hpos. unfold ncols. destruct A as [|row A]; simpl in *; [lia|].
  inversion Hc; assumption.
Qed.

Lemma wf_row (r c : nat) (A : @mat C) (i : nat) :
  wf r c A -> i < r -> length (nth i A []) = c.
Proof.
  intros [Hr Hc] Hi. rewrite List.Forall_forall in Hc. apply Hc, nth_In. lia.
Qed.

Lemma mk_ext (r c : nat) (f g : nat -> nat -> C) :
  (forall i j, i < r -> j < c -> f i j = g i j) -> mk r c f = mk r c g.
Proof.
  intros Hfg. unfold mk. apply map_ext_in. intros i Hi. apply in_seq in Hi.
  apply map_ext_in. intros j Hj. apply in_seq in Hj. apply Hfg; lia.
Qed.

(** Two arrays of the same shape with the same entries are the same array. *)
Lemma mat_eq (r c : nat) (A B : @mat C) :
  wf r c A -> wf r c B ->
  (forall i j, i < r -> j < c -> get A i j = get B i j) -> A = B.
Proof.
  intros HA HB Hget.
  apply (nth_ext A B [] []).
  - destruct HA as [-> _]. destruct HB as [-> _]. reflexivity.
  - intros i Hi. rewrite (proj1 HA) in Hi.
    apply (nth_ext _ _ c0 c0).
    + rewrite (wf_row r c A i HA Hi), (wf_row r c B i HB Hi). reflexivity.
    + intros j Hj. rewrite (wf_row r c A i HA Hi) in Hj. apply Hget; assumption.
Qed.

Lemma mk_get (r c : nat) (A : @mat C) : wf r c A -> mk r c (get A) = A.
Proof.
  intros HA. apply (mat_eq r c); [apply wf_mk | exact HA|].
  intros i j Hi Hj. apply get_mk; assumption.
Qed.

End Arrays.

Section ChoiRoundTrip.

Context {C : Type} `{Scalar C}.
Hypothesis Cring : ring_theory c0 c1 cadd cmul csub copp (@eq C).
Add Ring Cring_ring : Cring.

Local Open Scope ring_scope.

Lemma sum_n_ext (n : nat) (g h : nat -> C) :
  (forall k, (k < n)%nat -> g k = h k) -> sum_n n g = sum_n n h.
Proof.
  induction n as [|n IH]; intros Hgh; simpl; [reflexivity|].
  rewrite IH by (intros k Hk; apply Hgh; lia). rewrite Hgh by lia. reflexivity.
Qed.

Lemma sum_n_zero (n : nat) : sum_n n (fun _ => c0) = c0.
Proof. induction n as [|n IH]; simpl; [reflexivity | rewrite IH; ring]. Qed.

Lemma sum_n_add (n : nat) (g h : nat -> C) :
  sum_n n (fun k => g k + h k) = sum_n n g + sum_n n h.
Proof. induction n as [|n IH]; simpl; [ring | rewrite IH; ring]. Qed.

Lemma sum_n_scale (n : nat) (k : C) (g : nat -> C) :
  sum_n n (fun i => k * g i) = k * sum_n n g.
Proof. induction n as [|n IH]; simpl; [ring | rewrite IH; ring]. Qed.

Lemma sum_n_delta (n i : nat) (g : nat -> C) :
  sum_n n (fun k => if (k =? i)%nat then g k else c0)
  = if (i <? n)%nat then g i else c0.
Proof.
  induction n as [|n IH]; simpl; [reflexivity|]. rewrite IH.
  destruct (Nat.eqb_spec n i) as [->|Hne].
  - rewrite Nat.ltb_irrefl.
    replace (i <? S i)%nat with true by (symmetry; apply Nat.ltb_lt; lia). ring.
  - destruct (Nat.ltb_spec i n) as [Hlt|Hge].
    + replace (i <? S n)%nat with true by (symmetry; apply Nat.ltb_lt; lia). ring.
    + replace (i <? S n)%nat with false by (symmetry; apply Nat.ltb_ge; lia). ring.
Qed.

Lemma sum_n_pick (n i : nat) (g : nat -> C) :
  (i < n)%nat -> sum_n n (fun k => if (k =? i)%nat then g k else c0) = g i.
Proof.
  intros Hi. rewrite sum_n_delta.
  replace (i <? n)%nat with true by (symmetry; apply Nat.ltb_lt; exact Hi). reflexivity.
Qed.

Lemma sum_n_swap (a b : nat) (g : nat -> nat -> C) :
  sum_n a (fun x => sum_n b (fun y => g x y))
  = sum_n b (fun y => sum_n a (fun x => g x y)).
Proof.
  induction a as [|a IH]; simpl.
  - rewrite sum_n_zero. reflexivity.
  - rewrite IH, <- sum_n_add. reflexivity.
Qed.

Lemma sum_n_app (m k : nat) (g : nat -> C) :
  sum_n (m + k) g = sum_n m g + sum_n k (fun y => g (m + y)%nat).
Proof.
  induction k as [|k IH]; simpl.
  - rewrite Nat.add_0_r. ring.
  - rewrite Nat.add_succ_r. simpl. rewrite IH. ring.
Qed.

Lemma sum_n_prod (a b : nat) (g : nat -> C) :
  sum_n (a * b) g = sum_n a (fun x => sum_n b (fun y => g (x * b + y)%nat)).
Proof.
  induction a as [|a IH]; simpl; [reflexivity|].
  rewrite Nat.add_comm, sum_n_app, IH. reflexivity.
Qed.

Lemma lsum_app (u v : list C) : lsum (u ++ v) = lsum u + lsum v.
Proof. induction u as [|x u IH]; simpl; [ring | rewrite IH; ring]. Qed.

Lemma lsum_map_seq (n : nat) (g : nat -> C) : lsum (map g (seq 0 n)) = sum_n n g.
Proof.
  induction n as [|n IH]; [reflexivity|].
  rewrite seq_S, map_app, lsum_app, IH. simpl. ring.
Qed.

Lemma lsum_flat_map {A : Type} (F : A -> list C) (l : list A) :
  lsum (flat_map F l) = lsum (map (fun a => lsum (F a)) l).
Proof.
  induction l as [|a l IH]; simpl; [reflexivity|].
  rewrite lsum_app, IH. reflexivity.
Qed.

(** A sum over all single-entry operators is a double sum over their
    indices. *)
Lemma lsum_single_entries (d : nat) (g : @mat C -> C) :
  lsum (map g (generate_single_entries d))
  = sum_n d (fun a => sum_n d (fun b => g (single_entry d a b))).
Proof.
  unfold generate_single_entries.
  rewrite <- (lsum_map_seq d (fun a => sum_n d (fun b => g (single_entry d a b)))).
  generalize (seq 0 d) at 2 3. intros l.
  induction l as [|a l IH]; simpl; [reflexivity|].
  rewrite map_app, lsum_app, IH, map_map, lsum_map_seq. reflexivity.
Qed.

Lemma lsum_index_pairs (d : nat) (g : nat * nat -> C) :
  lsum (map g (index_pairs d)) = sum_n d (fun a => sum_n d (fun b => g (a, b))).
Proof.
  unfold index_pairs.
  rewrite <- (lsum_map_seq d (fun a => sum_n d (fun b => g (a, b)))).
  generalize (seq 0 d) at 2 3. intros l.
  induction l as [|a l IH]; simpl; [reflexivity|].
  rewrite map_app, lsum_app, IH, map_map, lsum_map_seq. reflexivity.
Qed.

(** ** Shapes and entries of the operations *)

Lemma wf_single_entry (d a b : nat) : wf d d (@single_entry C _ d a b).
Proof. apply wf_mk. Qed.

Lemma wf_madd (r c : nat) (A B : @mat C) :
  wf r c A -> (0 < r)%nat -> wf r c (madd A B).
Proof.
  intros HA Hr. unfold madd.
  rewrite (wf_nrows r c A HA), (wf_ncols r c A HA Hr). apply wf_mk.
Qed.

Lemma wf_mscale (r c : nat) (k : C) (A : @mat C) :
  wf r c A -> (0 < r)%nat -> wf r c (mscale k A).
Proof.
  intros HA Hr. unfold mscale.
  rewrite (wf_nrows r c A HA), (wf_ncols r c A HA Hr). apply wf_mk.
Qed.

Lemma wf_kron (r1 c1 r2 c2 : nat) (A B : @mat C) :
  wf r1 c1 A -> wf r2 c2 B -> (0 < r1)%nat -> (0 < r2)%nat ->
  wf (r1 * r2) (c1 * c2) (kron A B).
Proof.
  intros HA HB H1 H2. unfold kron.
  rewrite (wf_nrows _ _ A HA), (wf_ncols _ _ A HA H1),
          (wf_nrows _ _ B HB), (wf_ncols _ _ B HB H2).
  apply wf_mk.
Qed.

Lemma get_madd (r c : nat) (A B : @mat C) (i j : nat) :
  wf r c A -> (i < r)%nat -> (j < c)%nat ->
  get (madd A B) i j = get A i j + get B i j.
Proof.
  intros HA Hi Hj. unfold madd.
  rewrite (wf_nrows r c A HA), (wf_ncols r c A HA) by lia.
  rewrite get_mk by assumption. reflexivity.
Qed.

Lemma get_mscale (r c : nat) (k : C) (A : @mat C) (i j : nat) :
  wf r c A -> (i < r)%nat -> (j < c)%nat ->
  get (mscale k A) i j = k * get A i j.
Proof.
  intros HA Hi Hj. unfold mscale.
  rewrite (wf_nrows r c A HA), (wf_ncols r c A HA) by lia.
  rewrite get_mk by assumption. reflexivity.
Qed.

Lemma get_kron (r1 c1 r2 c2 : nat) (A B : @mat C) (i j : nat) :
  wf r1 c1 A -> wf r2 c2 B -> (i < r1 * r2)%nat -> (j < c1 * c2)%nat ->
  get (kron A B) i j
  = get A (i / r2) (j / c2) * get B (i mod r2) (j mod c2).
Proof.
  intros HA HB Hi Hj. unfold kron.
  assert (H1 : (0 < r1)%nat) by nia. assert (H2 : (0 < r2)%nat) by nia.
  rewrite (wf_nrows _ _ A HA), (wf_ncols _ _ A HA H1),
          (wf_nrows _ _ B HB), (wf_ncols _ _ B HB H2).
  rewrite get_mk by assumption. reflexivity.
Qed.

Lemma get_single_entry (d a b i j : nat) :
  (i < d)%nat -> (j < d)%nat ->
  get (single_entry d a b) i j = if (i =? a)%nat && (j =? b)%nat then c1 else c0.
Proof. intros Hi Hj. unfold single_entry. rewrite get_mk by assumption. reflexivity. Qed.

Lemma get_zeros (r c i j : nat) :
  (i < r)%nat -> (j < c)%nat -> get (zeros r c) i j = c0.
Proof. intros Hi Hj. unfold zeros. rewrite get_mk by assumption. reflexivity. Qed.

(** ** A linear map is determined by its values on the single-entry
    operators *)

Section Expansion.

Variable d : nat.
Variable f : @mat C -> @mat C.
Hypothesis Hd : (0 < d)%nat.
Hypothesis Hlin : linear_map d f.

Lemma linear_zero (p q : nat) :
  (p < d)%nat -> (q < d)%nat -> get (f (zeros d d)) p q = c0.
Proof.
  intros Hp Hq. destruct Hlin as (Hwf & _ & Hscale).
  assert (HZ : wf d d (zeros d d)) by apply wf_mk.
  assert (E : mscale c0 (zeros d d) = zeros d d).
  { apply (mat_eq d d); [apply wf_mscale; assumption | exact HZ|].
    intros i j Hi Hj. rewrite (get_mscale d d) by assumption.
    rewrite get_zeros by assumption. ring. }
  rewrite <- E, Hscale by exact HZ.
  rewrite (get_mscale d d) by auto. ring.
Qed.

Lemma wf_combination (rho : @mat C) (l : list (nat * nat)) :
  wf d d (combination d rho l).
Proof.
  destruct l as [|ab l]; simpl; [apply wf_mk|].
  apply wf_madd; [|exact Hd]. apply wf_mscale; [apply wf_single_entry | exact Hd].
Qed.

Lemma get_combination (rho : @mat C) (l : list (nat * nat)) (p q : nat) :
  (p < d)%nat -> (q < d)%nat ->
  get (combination d rho l) p q
  = lsum (map (fun ab => get rho (fst ab) (snd ab)
                         * get (single_entry d (fst ab) (snd ab)) p q) l).
Proof.
  intros Hp Hq. induction l as [|ab l IH]; simpl.
  - apply get_zeros; assumption.
  - rewrite (get_madd d d)
      by first [assumption | apply wf_mscale; [apply wf_single_entry | exact Hd]].
    rewrite (get_mscale d d) by first [assumption | apply wf_single_entry].
    rewrite IH. reflexivity.
Qed.

Lemma get_linear_combination (rho : @mat C) (l : list (nat * nat)) (p q : nat) :
  (p < d)%nat -> (q < d)%nat ->
  get (f (combination d rho l)) p q
  = lsum (map (fun ab => get rho (fst ab) (snd ab)
                         * get (f (single_entry d (fst ab) (snd ab))) p q) l).
Proof.
  intros Hp Hq. pose proof Hlin as (Hwf & Hadd & Hscale).
  induction l as [|ab l IH]; simpl.
  - apply linear_zero; assumption.
  - rewrite Hadd;
      [| apply wf_mscale; [apply wf_single_entry | exact Hd] | apply wf_combination].
    rewrite Hscale by apply wf_single_entry.
    rewrite (get_madd d d)
      by first [assumption | apply wf_mscale; [apply Hwf, wf_single_entry | exact Hd]].
    rewrite (get_mscale d d) by first [assumption | apply Hwf, wf_single_entry].
    rewrite IH. reflexivity.
Qed.

Lemma combination_all (rho : @mat C) :
  wf d d rho -> combination d rho (index_pairs d) = rho.
Proof.
  intros Hrho. apply (mat_eq d d); [apply wf_combination | exact Hrho|].
  intros p q Hp Hq. rewrite get_combination, lsum_index_pairs by assumption. simpl.
  rewrite (sum_n_ext d _ (fun a => if (a =? p)%nat then get rho a q else c0)).
  - exact (sum_n_pick d p (fun a => get rho a q) Hp).
  - intros a Ha.
    rewrite (sum_n_ext d _ (fun b => if (b =? q)%nat
                                     then (if (a =? p)%nat then get rho a b else c0)
                                     else c0)).
    + exact (sum_n_pick d q (fun b => if (a =? p)%nat then get rho a b else c0) Hq).
    + intros b Hb. rewrite get_single_entry by assumption.
      rewrite (Nat.eqb_sym p a), (Nat.eqb_sym q b).
      destruct (a =? p)%nat, (b =? q)%nat; simpl; ring.
Qed.

(** The expansion of [f rho] over the single-entry operators. *)
Lemma linear_expansion (rho : @mat C) (p q : nat) :
  wf d d rho -> (p < d)%nat -> (q < d)%nat ->
  get (f rho) p q
  = sum_n d (fun a => sum_n d (fun b =>
      get rho a b * get (f (single_entry d a b)) p q)).
Proof.
  intros Hrho Hp Hq.
  rewrite <- (combination_all rho Hrho) at 1.
  rewrite get_linear_combination, lsum_index_pairs by assumption. reflexivity.
Qed.

End Expansion.

(** ** The lazy construction computes the sum of [kron(E, f(E))] *)

Section Lazy.

Variable n : nat.
Variable f : @mat C -> @mat C.
Hypothesis Hlin : linear_map (2 ^ n) f.

Local Abbreviation d := (2 ^ n)%nat.

Ltac run := unfold bind, get_self, modify, ret, raise, lift; simpl.

Lemma wf_kron_entry (E : @mat C) : wf d d E -> wf (d * d) (d * d) (kron E (f E)).
Proof.
  intros HE. pose proof (pow2_pos n).
  apply wf_kron; [exact HE | apply (proj1 Hlin), HE | assumption | assumption].
Qed.

Lemma choi_step_func (E A : @mat C) (s : Channel) :
  "func" ∈ _types s -> _func s = Some f -> _choi s = Some A ->
  wf (d * d) (d * d) A -> wf d d E ->
  choi_step E s = (Ok tt, with_choi (Some (madd A (kron E (f E)))) s).
Proof.
  intros Hin Hf HA HwfA HE. pose proof (pow2_pos n) as Hd.
  unfold choi_step, transform_with. run.
  rewrite bool_decide_eq_true_2 by exact Hin. rewrite Hf. simpl. rewrite HA. simpl.
  unfold qadd.
  rewrite (wf_nrows _ _ A HwfA), (wf_ncols _ _ A HwfA) by nia.
  rewrite (wf_nrows _ _ _ (wf_kron_entry E HE)),
          (wf_ncols _ _ _ (wf_kron_entry E HE)) by nia.
  rewrite !Nat.eqb_refl. reflexivity.
Qed.

Lemma choi_loop_func (l : list (@mat C)) :
  forall (A : @mat C) (s : Channel),
    "func" ∈ _types s -> _func s = Some f -> _choi s = Some A ->
    wf (d * d) (d * d) A -> Forall (wf d d) l ->
    for_each l choi_step s
    = (Ok tt,
       with_choi (Some (fold_left (fun acc E => madd acc (kron E (f E))) l A)) s).
Proof.
  pose proof (pow2_pos n) as Hd.
  induction l as [|E l IH]; intros A s Hin Hf HA HwfA Hl; simpl.
  - unfold ret. destruct s; simpl in *. subst. reflexivity.
  - inversion Hl as [|E' l' HE Hl']; subst.
    unfold bind. rewrite (choi_step_func E A s Hin Hf HA HwfA HE).
    rewrite (IH (madd A (kron E (f E))) (with_choi (Some (madd A (kron E (f E)))) s));
      try assumption; try reflexivity.
    apply wf_madd; [exact HwfA | nia].
Qed.

Lemma wf_choi_sum (l : list (@mat C)) :
  forall A : @mat C,
    wf (d * d) (d * d) A ->
    wf (d * d) (d * d) (fold_left (fun acc E => madd acc (kron E (f E))) l A).
Proof.
  pose proof (pow2_pos n) as Hd.
  induction l as [|E l IH]; intros A HA; simpl; [exact HA|].
  apply IH, wf_madd; [exact HA | nia].
Qed.

Lemma get_choi_sum (l : list (@mat C)) (i j : nat) :
  (i < d * d)%nat -> (j < d * d)%nat -> Forall (wf d d) l ->
  forall A : @mat C,
    wf (d * d) (d * d) A ->
    get (fold_left (fun acc E => madd acc (kron E (f E))) l A) i j
    = get A i j + lsum (map (fun E => get (kron E (f E)) i j) l).
Proof.
  intros Hi Hj. pose proof (pow2_pos n) as Hd.
  induction l as [|E l IH]; intros Hl A HA; simpl; [ring|].
  inversion Hl as [|E' l' HE Hl']; subst.
  rewrite IH by first [assumption | apply wf_madd; [exact HA | nia]].
  rewrite (get_madd (d * d) (d * d)) by assumption. ring.
Qed.

Lemma wf_single_entries : Forall (wf d d) (@generate_single_entries C _ d).
Proof.
  apply List.Forall_forall. intros E HE. unfold generate_single_entries in HE.
  apply in_flat_map in HE as (a & _ & HE). apply in_map_iff in HE as (b & <- & _).
  apply wf_single_entry.
Qed.

Lemma wf_zeros_pow4 : wf (d * d) (d * d) (@zeros C _ (4 ^ n) (4 ^ n)).
Proof. rewrite pow4_square. apply wf_mk. Qed.

Lemma wf_choi_matrix : wf (d * d) (d * d) (choi_matrix n f).
Proof. apply wf_choi_sum, wf_zeros_pow4. Qed.

(** The block [(a, b)] of the Choi matrix is [f] of the single-entry operator
    [(a, b)]. *)
Lemma get_choi_matrix (a b p q : nat) :
  (a < d)%nat -> (b < d)%nat -> (p < d)%nat -> (q < d)%nat ->
  get (choi_matrix n f) (a * d + p) (b * d + q)
  = get (f (single_entry d a b)) p q.
Proof.
  intros Ha Hb Hp Hq.
  pose proof (block_bound d a p Ha Hp) as Hi.
  pose proof (block_bound d b q Hb Hq) as Hj.
  destruct (divmod_block d a p Hp) as [Hia Hip].
  destruct (divmod_block d b q Hq) as [Hjb Hjq].
  unfold choi_matrix.
  rewrite get_choi_sum
    by first [assumption | apply wf_single_entries | apply wf_zeros_pow4].
  rewrite pow4_square, get_zeros by assumption.
  rewrite lsum_single_entries.
  rewrite (sum_n_ext d _
             (fun a' => if (a' =? a)%nat
                        then get (f (single_entry d a' b)) p q else c0)).
  - rewrite (sum_n_pick d a (fun a' => get (f (single_entry d a' b)) p q) Ha). ring.
  - intros a' Ha'.
    rewrite (sum_n_ext d _
               (fun b' => if (b' =? b)%nat
                          then (if (a' =? a)%nat
                                then get (f (single_entry d a' b')) p q else c0)
                          else c0)).
    + exact (sum_n_pick d b
               (fun b' => if (a' =? a)%nat
                          then get (f (single_entry d a' b')) p q else c0) Hb).
    + intros b' Hb'.
      rewrite (get_kron d d d d)
        by first [assumption | apply wf_single_entry | apply (proj1 Hlin), wf_single_entry].
      rewrite Hia, Hip, Hjb, Hjq, get_single_entry by assumption.
      rewrite (Nat.eqb_sym a a'), (Nat.eqb_sym b b').
      destruct (a' =? a)%nat, (b' =? b)%nat; simpl; ring.
Qed.

(** Reading [choi] on a channel that only has the function computes the
    Choi matrix, caches it and marks it valid. *)
Lemma choi_get_func (s : Channel) :
  "func" ∈ _types s -> "choi" ∉ _types s -> _func s = Some f -> n_qubits s = n ->
  choi_get s
  = (Ok (Some (choi_matrix n f)),
     mkChannel (set_add "choi" (_types s)) (Some (choi_matrix n f)) (Some f) n).
Proof.
  intros Hin Hout Hf Hn. unfold choi_get. run.
  rewrite bool_decide_eq_false_2 by exact Hout. rewrite Hn.
  rewrite (choi_loop_func _ (zeros (4 ^ n) (4 ^ n))).
  - simpl. unfold choi_matrix, with_choi, with_types. simpl. rewrite Hf, Hn. reflexivity.
  - change ("func" ∈ set_add "choi" (_types s)). apply in_set_add_other, Hin.
  - exact Hf.
  - reflexivity.
  - apply wf_zeros_pow4.
  - apply wf_single_entries.
Qed.

End Lazy.

(** ** The Choi path of [transform] applies the map *)

Section ChoiPath.

Variable n : nat.
Variable f : @mat C -> @mat C.
Hypothesis Hlin : linear_map (2 ^ n) f.

Local Abbreviation d := (2 ^ n)%nat.

Ltac run := unfold bind, get_self, modify, ret, raise, lift; simpl.

Lemma wf_transpose (rho : @mat C) : wf d d rho -> wf d d (transpose rho).
Proof.
  intros Hrho. pose proof (pow2_pos n). unfold transpose.
  rewrite (wf_nrows _ _ rho Hrho), (wf_ncols _ _ rho Hrho) by assumption. apply wf_mk.
Qed.

Lemma get_transpose (rho : @mat C) (i j : nat) :
  wf d d rho -> (i < d)%nat -> (j < d)%nat -> get (transpose rho) i j = get rho j i.
Proof.
  intros Hrho Hi Hj. unfold transpose.
  rewrite (wf_nrows _ _ rho Hrho), (wf_ncols _ _ rho Hrho) by lia.
  rewrite get_mk by assumption. reflexivity.
Qed.

Lemma get_eye (i j : nat) :
  (i < d)%nat -> (j < d)%nat -> get (eye d) i j = if (i =? j)%nat then c1 else c0.
Proof. intros Hi Hj. unfold eye. rewrite get_mk by assumption. reflexivity. Qed.

Lemma wf_common_state (rho : @mat C) :
  wf d d rho -> wf (d * d) (d * d) (kron (transpose rho) (eye d)).
Proof.
  intros Hrho. pose proof (pow2_pos n).
  apply wf_kron; [apply wf_transpose, Hrho | apply wf_mk | assumption | assumption].
Qed.

(** An entry of [kron(state.T, eye) @ choi] on the diagonal blocks. *)
Lemma get_product (rho : @mat C) (t p q : nat) :
  wf d d rho -> (t < d)%nat -> (p < d)%nat -> (q < d)%nat ->
  get (mmul (kron (transpose rho) (eye d)) (choi_matrix n f)) (t * d + p) (t * d + q)
  = sum_n d (fun a => get rho a t * get (f (single_entry d a t)) p q).
Proof.
  intros Hrho Ht Hp Hq. pose proof (pow2_pos n) as Hd.
  pose proof (wf_common_state rho Hrho) as HX.
  pose proof (wf_choi_matrix n f) as HJ.
  destruct (divmod_block d t p Hp) as [Hit Hip].
  unfold mmul.
  rewrite (wf_nrows _ _ _ HX), (wf_ncols _ _ _ HX), (wf_ncols _ _ _ HJ) by nia.
  rewrite get_mk by (apply block_bound; assumption).
  rewrite sum_n_prod. apply sum_n_ext. intros a Ha.
  rewrite (sum_n_ext d _
             (fun c => if (c =? p)%nat
                       then get rho a t * get (f (single_entry d a t)) c q else c0)).
  - exact (sum_n_pick d p
             (fun c => get rho a t * get (f (single_entry d a t)) c q) Hp).
  - intros c Hc. destruct (divmod_block d a c Hc) as [Hka Hkc].
    rewrite (get_kron d d d d)
      by first [ apply block_bound; assumption
               | apply wf_transpose, Hrho | apply wf_mk ].
    rewrite Hit, Hip, Hka, Hkc.
    rewrite get_transpose, get_eye by assumption.
    rewrite (get_choi_matrix n f Hlin) by assumption.
    rewrite (Nat.eqb_sym p c). destruct (c =? p)%nat; ring.
Qed.

Lemma transform_choi_path (s : Channel) (rho : @mat C) :
  "func" ∉ _types s -> "choi" ∈ _types s ->
  _choi s = Some (choi_matrix n f) -> n_qubits s = n ->
  wf d d rho ->
  transform rho s = (Ok (f rho), s).
Proof.
  intros Hout Hin HJ Hn Hrho. pose proof (pow2_pos n) as Hd.
  pose proof (wf_common_state rho Hrho) as HX.
  pose proof (wf_choi_matrix n f) as HwfJ.
  unfold transform, transform_with. run.
  rewrite bool_decide_eq_false_2 by exact Hout.
  rewrite (choi_get_cached s Hin), HJ, Hn.
  unfold qmatmul.
  rewrite (wf_ncols _ _ _ HX), (wf_nrows _ _ _ HwfJ), Nat.eqb_refl by nia.
  simpl. rewrite ?Hn. unfold ptrace_keep_upper.
  assert (HP : wf (d * d) (d * d)
                  (mmul (kron (transpose rho) (eye d)) (choi_matrix n f))).
  { unfold mmul. rewrite (wf_nrows _ _ _ HX), (wf_ncols _ _ _ HwfJ) by nia.
    apply wf_mk. }
  rewrite (wf_nrows _ _ _ HP), (wf_ncols _ _ _ HP), !Nat.eqb_refl by nia. simpl.
  f_equal. f_equal.
  rewrite <- (mk_get d d (f rho)) by (apply (proj1 Hlin), Hrho).
  apply mk_ext. intros p q Hp Hq.
  rewrite (linear_expansion d f Hd Hlin rho p q Hrho Hp Hq).
  rewrite sum_n_swap. apply sum_n_ext. intros t Ht.
  exact (get_product rho t p q Hrho Ht Hp Hq).
Qed.

End ChoiPath.

(** C1. For a linear map [f] of [n]-qubit operators, the channel constructed
    from [f] returns, on the first read of [choi], the sum over all
    single-entry operators [E] of [kron(E, f(E))] and caches it; once the
    function is invalidated (by assigning that matrix to [choi], or on any
    channel that holds it as its only valid representation), [transform]
    through the Choi matrix returns [f rho] for every [n]-qubit operator
    [rho], as the function path does. *)
Theorem choi_round_trip (n : nat) (f : @mat C -> @mat C) (rho : @mat C) :
  linear_map (2 ^ n) f -> wf (2 ^ n) (2 ^ n) rho ->
  exists ch0 ch1 ch2 : Channel,
    Channel_init (PyCallable f) (Some n) = Ok ch0
    /\ choi_get ch0 = (Ok (Some (choi_matrix n f)), ch1)
    /\ _choi ch1 = Some (choi_matrix n f)
    /\ choi_set (choi_matrix n f) ch1 = (Ok tt, ch2)
    /\ ("func" ∉ _types ch2)
    /\ transform rho ch2 = (Ok (f rho), ch2)
    /\ transform rho ch0 = (Ok (f rho), ch0)
    /\ (forall s : Channel,
          "func" ∉ _types s -> "choi" ∈ _types s ->
          _choi s = Some (choi_matrix n f) -> n_qubits s = n ->
          transform rho s = (Ok (f rho), s)).
Proof.
  intros Hlin Hrho.
  pose proof (wf_choi_matrix n f) as HwfJ.
  assert (Hside : n_qubits_of_side (nrows (choi_matrix n f)) = Ok n).
  { rewrite (wf_nrows _ _ _ HwfJ), <- pow4_square. apply n_qubits_of_side_pow4. }
  set (ch0 := mkChannel (set_add "func" ∅) None (Some f) n).
  assert (Hfunc0 : "func" ∈ _types ch0) by apply in_set_add.
  assert (Hchoi0 : "choi" ∉ _types ch0).
  { simpl. unfold set_add. intros Hin. apply elem_of_union in Hin as [Hin|Hin].
    - apply elem_of_singleton in Hin. discriminate.
    - exact (not_elem_of_empty _ Hin). }
  exists ch0. eexists. eexists.
  split; [reflexivity|].
  split; [apply (choi_get_func n f Hlin ch0 Hfunc0 Hchoi0); reflexivity|].
  split; [reflexivity|].
  split.
  { unfold choi_set, bind, modify, lift. simpl. rewrite Hside. reflexivity. }
  split; [apply notin_set_discard|].
  split.
  { apply (transform_choi_path n f Hlin);
      first [ exact Hrho | apply notin_set_discard
            | apply in_set_add_discard; discriminate | reflexivity ]. }
  split.
  { unfold transform, transform_with, bind, get_self, ret. simpl.
    rewrite bool_decide_eq_true_2 by exact Hfunc0. reflexivity. }
  intros s Hout Hin HJ Hn. apply (transform_choi_path n f Hlin); assumption.
Qed.

End ChoiRoundTrip.

(* ------------------------------------------------------------------------- *)
(** * The claims at concrete inputs *)

Lemma ch_both_ex_reachable : reachable ch_both_ex.
Proof.
  apply reach_choi_get.
  apply (reach_init (PyCallable f_ex) (Some 1) ch_func_ex). reflexivity.
Qed.

Lemma Channel_init_outcomes_witness :
  exists self, Channel_init (PyNdarray choi_ex) None = Ok self
               /\ n_qubits self = 1
               /\ _choi self = Some choi_ex
               /\ "choi" ∈ _types self
               /\ "func" ∉ _types self.
Proof.
  apply (proj2 (proj2 (Channel_init_outcomes (PyNdarray choi_ex) None)) choi_ex 1).
  - left. reflexivity.
  - reflexivity.
Defined.

Lemma representations_valid_witness : has_repr ch_both_ex.
Proof. exact (proj1 representations_valid ch_both_ex ch_both_ex_reachable). Defined.

Lemma transform_no_mutation_witness : snd (transform rho_ex ch_both_ex) = ch_both_ex.
Proof. exact (proj1 (transform_no_mutation ch_both_ex rho_ex) ch_both_ex_reachable). Defined.




(** The stand-in map on single-qubit operators is linear. *)
Lemma f_ex_linear : linear_map (2 ^ 1) f_ex.
Proof.
  assert (Hr : ring_theory 0%Z 1%Z Z.add Z.mul Z.sub Z.opp eq) by exact Zth.
  assert (Hshape : forall A : @mat Z, wf 2 2 A -> wf 2 2 (f_ex A)).
  { intros A HA. unfold f_ex. apply wf_madd; [|lia].
    unfold transpose. rewrite (wf_nrows _ _ A HA), (wf_ncols _ _ A HA) by lia.
    apply wf_mk. }
  assert (Hget : forall (A : @mat Z) i j, wf 2 2 A -> i < 2 -> j < 2 ->
            get (f_ex A) i j = (get A j i + 5 * get A i j)%Z).
  { intros A i j HA Hi Hj. unfold f_ex.
    assert (HT : wf 2 2 (transpose A)).
    { unfold transpose. rewrite (wf_nrows _ _ A HA), (wf_ncols _ _ A HA) by lia.
      apply wf_mk. }
    rewrite (get_madd 2 2) by assumption.
    rewrite (get_mscale 2 2) by assumption.
    unfold transpose. rewrite (wf_nrows _ _ A HA), (wf_ncols _ _ A HA) by lia.
    rewrite get_mk by assumption. reflexivity. }
  change (2 ^ 1) with 2. split; [exact Hshape | split].
  - intros A B HA HB.
    apply (mat_eq 2 2); [apply Hshape, wf_madd; [exact HA | lia]
                        | apply wf_madd; [apply Hshape, HA | lia] |].
    intros i j Hi Hj.
    rewrite Hget by first [assumption | apply wf_madd; [exact HA | lia]].
    rewrite !(get_madd 2 2) by first [assumption | apply Hshape, HA].
    rewrite !Hget by assumption. simpl. ring.
  - intros k A HA.
    apply (mat_eq 2 2); [apply Hshape, wf_mscale; [exact HA | lia]
                        | apply wf_mscale; [apply Hshape, HA | lia] |].
    intros i j Hi Hj.
    rewrite Hget by first [assumption | apply wf_mscale; [exact HA | lia]].
    rewrite !(get_mscale 2 2) by first [assumption | apply Hshape, HA].
    rewrite Hget by assumption. simpl. ring.
Qed.

Lemma rho_ex_wf : wf (2 ^ 1) (2 ^ 1) rho_ex.
Proof. split; [reflexivity|]. repeat constructor. Qed.

Lemma choi_round_trip_witness :
  exists ch0 ch1 ch2 : @Channel Z,
    Channel_init (PyCallable f_ex) (Some 1) = Ok ch0
    /\ choi_get ch0 = (Ok (Some (choi_matrix 1 f_ex)), ch1)
    /\ _choi ch1 = Some (choi_matrix 1 f_ex)
    /\ choi_set (choi_matrix 1 f_ex) ch1 = (Ok tt, ch2)
    /\ ("func" ∉ _types ch2)
    /\ transform rho_ex ch2 = (Ok (f_ex rho_ex), ch2)
    /\ transform rho_ex ch0 = (Ok (f_ex rho_ex), ch0)
    /\ (forall s : @Channel Z,
          "func" ∉ _types s -> "choi" ∈ _types s ->
          _choi s = Some (choi_matrix 1 f_ex) -> n_qubits s = 1 ->
          transform rho_ex s = (Ok (f_ex rho_ex), s)).
Proof. exact (choi_round_trip Zth 1 f_ex rho_ex f_ex_linear rho_ex_wf). Defined.

(* ------------------------------------------------------------------------- *)
(** * Further properties of channels *)

Section ChannelExtras.

Context {C : Type} `{Scalar C}.

Ltac run := unfold bind, get_self, modify, ret, raise, lift; simpl.

(** The loop of the getter changes the cached matrix and nothing else. *)
Lemma choi_step_frame (E : @mat C) (s : Channel) :
  exists v, snd (choi_step E s) = with_choi v s.
Proof.
  pose proof (transform_cached_frame E s) as Hfr.
  unfold choi_step, bind, get_self. cbv beta iota.
  destruct (transform_with choi_cached E s) as [[out|e] s1];
    simpl in Hfr; rewrite Hfr.
  - run. destruct (_choi s) as [acc|]; simpl.
    + destruct (qadd acc (kron E out)); simpl.
      * eexists. reflexivity.
      * exists (_choi s). destruct s; reflexivity.
    + exists (_choi s). destruct s; reflexivity.
  - exists (_choi s). destruct s; reflexivity.
Qed.

Lemma choi_loop_frame (l : list (@mat C)) (s : Channel) :
  exists v, snd (for_each l choi_step s) = with_choi v s.
Proof.
  apply (for_each_preserves (fun s' => exists v, s' = with_choi v s)).
  - intros E s' [v ->]. destruct (choi_step_frame E (with_choi v s)) as [v' ->].
    exists v'. reflexivity.
  - exists (_choi s). destruct s; reflexivity.
Qed.

Lemma choi_get_frame (s : Channel) :
  _func (snd (choi_get s)) = _func s /\ n_qubits (snd (choi_get s)) = n_qubits s.
Proof.
  unfold choi_get. run.
  destruct (bool_decide ("choi" ∈ _types s)); [auto|].
  match goal with |- context [for_each ?l choi_step ?s0] =>
    destruct (choi_loop_frame l s0) as [v Hv];
    destruct (for_each l choi_step s0) as [[u|e] s1] end;
    simpl in *; subst s1; auto.
Qed.

(** X2. Reading [choi], whether it returns or raises, leaves the function
    and the qubit count as they were and keeps the function valid, so that a
    [transform] made afterwards on a channel with a valid function still
    applies the function, not the Choi matrix. *)
Theorem transform_after_choi_read (s : @Channel C) (f : @mat C -> @mat C)
    (state : @mat C) :
  "func" ∈ _types s -> _func s = Some f ->
  let s1 := snd (choi_get s) in
  "func" ∈ _types s1 /\ "choi" ∈ _types s1
  /\ _func s1 = Some f /\ n_qubits s1 = n_qubits s
  /\ transform state s1 = (Ok (f state), s1).
Proof.
  intros Hin Hf s1.
  destruct (choi_get_frame s) as [Hfunc Hn]. fold s1 in Hfunc, Hn.
  pose proof (choi_get_types s) as Hty. fold s1 in Hty.
  assert (Hin1 : "func" ∈ _types s1).
  { rewrite Hty. case_bool_decide; [exact Hin | apply in_set_add_other, Hin]. }
  split; [exact Hin1|]. split.
  { rewrite Hty. case_bool_decide; [assumption | apply in_set_add]. }
  split; [rewrite Hfunc; exact Hf|]. split; [exact Hn|].
  unfold transform, transform_with. run.
  rewrite bool_decide_eq_true_2 by exact Hin1. rewrite Hfunc, Hf. reflexivity.
Qed.

(** X3. Assigning to [choi] a square matrix of side [4 ^ n] returns; the
    channel then holds the matrix, marked valid, and the qubit count [n];
    the function is kept but is no longer valid; a read of [choi] made next
    returns the assigned matrix and changes nothing. *)
Theorem choi_set_then_get (n : nat) (s : @Channel C) (data : @mat C) :
  wf (4 ^ n) (4 ^ n) data ->
  let s1 := mkChannel (set_discard "func" (set_add "choi" (_types s)))
                      (Some data) (_func s) n in
  choi_set data s = (Ok tt, s1)
  /\ "choi" ∈ _types s1 /\ ("func" ∉ _types s1)
  /\ choi_get s1 = (Ok (Some data), s1).
Proof.
  intros Hwf s1.
  assert (Hin : "choi" ∈ _types s1).
  { apply in_set_add_discard. discriminate. }
  split.
  { unfold choi_set. run. rewrite (wf_nrows _ _ _ Hwf), n_qubits_of_side_pow4.
    destruct s; reflexivity. }
  split; [exact Hin|].
  split; [apply notin_set_discard|].
  rewrite (choi_get_cached s1 Hin). reflexivity.
Qed.

End ChannelExtras.

(** ** Transposes, conjugates and the derived channels *)

Section Views.

Context {C : Type} `{Scalar C}.

Ltac run := unfold bind, get_self, modify, ret, raise, lift; simpl.

Lemma wf_transpose_gen (r c : nat) (A : @mat C) :
  wf r c A -> (0 < r)%nat -> wf c r (transpose A).
Proof.
  intros HA Hr. unfold transpose.
  rewrite (wf_nrows _ _ A HA), (wf_ncols _ _ A HA Hr). apply wf_mk.
Qed.

Lemma get_transpose_gen (r c : nat) (A : @mat C) (i j : nat) :
  wf r c A -> (i < c)%nat -> (j < r)%nat -> get (transpose A) i j = get A j i.
Proof.
  intros HA Hi Hj. unfold transpose.
  rewrite (wf_nrows _ _ A HA), (wf_ncols _ _ A HA) by lia.
  rewrite get_mk by assumption. reflexivity.
Qed.

Lemma transpose_involutive (r c : nat) (A : @mat C) :
  wf r c A -> (0 < r)%nat -> (0 < c)%nat -> transpose (transpose A) = A.
Proof.
  intros HA Hr Hc.
  pose proof (wf_transpose_gen r c A HA Hr) as HT.
  apply (mat_eq r c); [apply (wf_transpose_gen c r); assumption | exact HA |].
  intros i j Hi Hj.
  rewrite (get_transpose_gen c r) by assumption.
  apply (get_transpose_gen r c); assumption.
Qed.

Variable cconj : C -> C.

Lemma wf_mconj (r c : nat) (A : @mat C) :
  wf r c A -> (0 < r)%nat -> wf r c (mconj cconj A).
Proof.
  intros HA Hr. unfold mconj.
  rewrite (wf_nrows _ _ A HA), (wf_ncols _ _ A HA Hr). apply wf_mk.
Qed.

Lemma get_mconj (r c : nat) (A : @mat C) (i j : nat) :
  wf r c A -> (i < r)%nat -> (j < c)%nat ->
  get (mconj cconj A) i j = cconj (get A i j).
Proof.
  intros HA Hi Hj. unfold mconj.
  rewrite (wf_nrows _ _ A HA), (wf_ncols _ _ A HA) by lia.
  rewrite get_mk by assumption. reflexivity.
Qed.

Lemma wf_adjoint (r c : nat) (A : @mat C) :
  wf r c A -> (0 < r)%nat -> (0 < c)%nat -> wf c r (adjoint cconj A).
Proof.
  intros HA Hr Hc. unfold adjoint.
  apply wf_mconj; [apply (wf_transpose_gen r c); assumption | exact Hc].
Qed.

Hypothesis cconj_involutive : forall x, cconj (cconj x) = x.

Lemma mconj_involutive (r c : nat) (A : @mat C) :
  wf r c A -> (0 < r)%nat -> mconj cconj (mconj cconj A) = A.
Proof.
  intros HA Hr. pose proof (wf_mconj r c A HA Hr) as HB.
  apply (mat_eq r c); [apply wf_mconj; assumption | exact HA |].
  intros i j Hi Hj.
  rewrite (get_mconj r c) by assumption.
  rewrite (get_mconj r c) by assumption. apply cconj_involutive.
Qed.

Lemma adjoint_involutive (r c : nat) (A : @mat C) :
  wf r c A -> (0 < r)%nat -> (0 < c)%nat ->
  adjoint cconj (adjoint cconj A) = A.
Proof.
  intros HA Hr Hc.
  pose proof (wf_transpose_gen r c A HA Hr) as HT.
  pose proof (wf_adjoint r c A HA Hr Hc) as HH.
  apply (mat_eq r c); [apply (wf_adjoint c r); assumption | exact HA |].
  intros i j Hi Hj. unfold adjoint at 1.
  rewrite (get_mconj r c)
    by first [assumption | apply (wf_transpose_gen c r); assumption].
  rewrite (get_transpose_gen c r) by assumption.
  unfold adjoint. rewrite (get_mconj c r) by assumption.
  rewrite (get_transpose_gen r c) by assumption. apply cconj_involutive.
Qed.

End Views.

Section DerivedChannels.

Context {C : Type} `{Scalar C}.

Ltac run := unfold bind, get_self, modify, ret, raise, lift; simpl.

(** On a channel with a cached, valid Choi matrix a derived channel is the
    channel constructed from the view of that matrix; the channel itself is
    left alone. *)
Lemma derived_channel_cached (name : string) (view : @mat C -> @mat C)
    (s : Channel) (J : @mat C) :
  "choi" ∈ _types s -> _choi s = Some J ->
  derived_channel name view s = (Channel_init (PyQobj (view J)) None, s).
Proof.
  intros Hin HJ. unfold derived_channel. run.
  rewrite (choi_get_cached s Hin), HJ. reflexivity.
Qed.

Lemma Channel_init_qobj_pow4 (n : nat) (A : @mat C) :
  wf (4 ^ n) (4 ^ n) A ->
  Channel_init (PyQobj A) None = Ok (mkChannel (set_add "choi" ∅) (Some A) None n).
Proof.
  intros HA. simpl. rewrite (wf_nrows _ _ A HA), n_qubits_of_side_pow4. reflexivity.
Qed.

(** A view that keeps the shape and undoes itself gives back, applied
    twice, a channel with the Choi matrix one started from. *)
Lemma derived_twice (name : string) (view : @mat C -> @mat C) (n : nat)
    (s : Channel) (J : @mat C) :
  (forall A, wf (4 ^ n) (4 ^ n) A -> wf (4 ^ n) (4 ^ n) (view A)) ->
  (forall A, wf (4 ^ n) (4 ^ n) A -> view (view A) = A) ->
  "choi" ∈ _types s -> _choi s = Some J -> wf (4 ^ n) (4 ^ n) J ->
  let t := mkChannel (set_add "choi" ∅) (Some (view J)) None n in
  derived_channel name view s = (Ok t, s)
  /\ derived_channel name view t
     = (Ok (mkChannel (set_add "choi" ∅) (Some J) None n), t).
Proof.
  intros Hwf Hinv Hin HJ HwfJ t. split.
  - rewrite (derived_channel_cached name view s J Hin HJ).
    rewrite (Channel_init_qobj_pow4 n) by (apply Hwf, HwfJ). reflexivity.
  - rewrite (derived_channel_cached name view t (view J));
      [| apply in_set_add | reflexivity].
    rewrite (Hinv J HwfJ). rewrite (Channel_init_qobj_pow4 n) by exact HwfJ.
    reflexivity.
Qed.

(** X4. On a channel whose valid Choi matrix [J] has side [4 ^ n], [T]
    leaves the channel alone and returns a channel on [n] qubits whose only
    valid representation is the transpose of [J]; [T] of that channel
    returns a channel whose Choi matrix is [J] again. *)
Theorem Channel_T_twice (n : nat) (s : @Channel C) (J : @mat C) :
  "choi" ∈ _types s -> _choi s = Some J -> wf (4 ^ n) (4 ^ n) J ->
  let t := mkChannel (set_add "choi" ∅) (Some (transpose J)) None n in
  Channel_T s = (Ok t, s)
  /\ ("func" ∉ _types t)
  /\ Channel_T t = (Ok (mkChannel (set_add "choi" ∅) (Some J) None n), t).
Proof.
  intros Hin HJ HwfJ t. pose proof (pow4_pos n) as Hpos.
  destruct (derived_twice "T" transpose n s J) as [H1 H2]; try assumption.
  - intros A HA. apply (wf_transpose_gen (4 ^ n) (4 ^ n)); [exact HA | lia].
  - intros A HA. apply (transpose_involutive (4 ^ n) (4 ^ n)); [exact HA | lia | lia].
  - split; [exact H1 | split; [|exact H2]].
    simpl. unfold set_add. intros Hf. apply elem_of_union in Hf as [Hf|Hf].
    + apply elem_of_singleton in Hf. discriminate.
    + exact (not_elem_of_empty _ Hf).
Qed.

(** X5. With a conjugation that undoes itself, [conj()] and [H] behave the
    same way: on a channel whose valid Choi matrix [J] has side [4 ^ n] they
    leave the channel alone and return the channel of the conjugate, or of
    the conjugate transpose, of [J], and applied to that channel they return
    a channel whose Choi matrix is [J] again. *)
Theorem Channel_conj_H_twice (cconj : C -> C) (n : nat) (s : @Channel C) (J : @mat C) :
  (forall x, cconj (cconj x) = x) ->
  "choi" ∈ _types s -> _choi s = Some J -> wf (4 ^ n) (4 ^ n) J ->
  let tc := mkChannel (set_add "choi" ∅) (Some (mconj cconj J)) None n in
  let th := mkChannel (set_add "choi" ∅) (Some (adjoint cconj J)) None n in
  Channel_conj cconj s = (Ok tc, s)
  /\ Channel_conj cconj tc = (Ok (mkChannel (set_add "choi" ∅) (Some J) None n), tc)
  /\ Channel_H cconj s = (Ok th, s)
  /\ Channel_H cconj th = (Ok (mkChannel (set_add "choi" ∅) (Some J) None n), th).
Proof.
  intros Hconj Hin HJ HwfJ tc th. pose proof (pow4_pos n) as Hpos.
  destruct (derived_twice "conj" (mconj cconj) n s J) as [H1 H2]; try assumption.
  - intros A HA. apply wf_mconj; [exact HA | lia].
  - intros A HA. apply (mconj_involutive cconj Hconj (4 ^ n) (4 ^ n)); [exact HA | lia].
  - destruct (derived_twice "H" (adjoint cconj) n s J) as [H3 H4]; try assumption.
    + intros A HA. apply wf_adjoint; [exact HA | lia | lia].
    + intros A HA.
      apply (adjoint_involutive cconj Hconj (4 ^ n) (4 ^ n)); [exact HA | lia | lia].
    + auto.
Qed.

End DerivedChannels.

(** ** Choi matrices of function channels *)

Lemma block_split (d i : nat) :
  i < d * d -> exists a p, a < d /\ p < d /\ i = a * d + p.
Proof.
  intros Hi. assert (Hd : d <> 0) by (intros ->; lia).
  exists (i / d), (i mod d). split; [|split].
  - apply Nat.Div0.div_lt_upper_bound. exact Hi.
  - apply Nat.mod_upper_bound, Hd.
  - rewrite (Nat.mul_comm (i / d) d). apply Nat.div_mod_eq.
Qed.

Section FunctionChannels.

Context {C : Type} `{Scalar C}.
Hypothesis Cring : ring_theory c0 c1 cadd cmul csub copp (@eq C).
Add Ring Cring_ring2 : Cring.

Local Open Scope ring_scope.

Ltac run := unfold bind, get_self, modify, ret, raise, lift; simpl.

Lemma transpose_single_entry (d a b : nat) :
  (0 < d)%nat -> transpose (@single_entry C _ d a b) = single_entry d b a.
Proof.
  intros Hd.
  apply (mat_eq d d);
    [apply (wf_transpose_gen d d); [apply wf_single_entry | exact Hd]
    | apply wf_single_entry |].
  intros i j Hi Hj.
  rewrite (get_transpose_gen d d) by first [assumption | apply wf_single_entry].
  rewrite !get_single_entry by assumption.
  rewrite andb_comm. reflexivity.
Qed.

Lemma transpose_madd (d : nat) (A B : @mat C) :
  (0 < d)%nat -> wf d d A -> wf d d B ->
  transpose (madd A B) = madd (transpose A) (transpose B).
Proof.
  intros Hd HA HB.
  pose proof (wf_transpose_gen d d A HA Hd) as HTA.
  pose proof (wf_madd d d A B HA Hd) as HS.
  apply (mat_eq d d);
    [apply (wf_transpose_gen d d); assumption | apply (wf_madd d d); assumption |].
  intros i j Hi Hj.
  rewrite (get_transpose_gen d d) by assumption.
  rewrite !(get_madd d d) by assumption.
  rewrite !(get_transpose_gen d d) by assumption. reflexivity.
Qed.

Lemma transpose_mscale (d : nat) (k : C) (A : @mat C) :
  (0 < d)%nat -> wf d d A ->
  transpose (mscale k A) = mscale k (transpose A).
Proof.
  intros Hd HA.
  pose proof (wf_transpose_gen d d A HA Hd) as HTA.
  pose proof (wf_mscale d d k A HA Hd) as HS.
  apply (mat_eq d d);
    [apply (wf_transpose_gen d d); assumption | apply (wf_mscale d d); assumption |].
  intros i j Hi Hj.
  rewrite (get_transpose_gen d d) by assumption.
  rewrite !(get_mscale d d) by assumption.
  rewrite (get_transpose_gen d d) by assumption. reflexivity.
Qed.

Lemma linear_transposed_map (d : nat) (f : @mat C -> @mat C) :
  (0 < d)%nat -> linear_map d f -> linear_map d (transposed_map f).
Proof.
  intros Hd (Hwf & Hadd & Hscale). unfold transposed_map.
  assert (HT : forall A, wf d d A -> wf d d (transpose A)).
  { intros A HA. apply (wf_transpose_gen d d); assumption. }
  split; [|split].
  - intros A HA. apply HT, Hwf, HT, HA.
  - intros A B HA HB.
    rewrite (transpose_madd d A B Hd HA HB).
    rewrite Hadd by (apply HT; assumption).
    apply (transpose_madd d); [exact Hd | apply Hwf, HT, HA | apply Hwf, HT, HB].
  - intros k A HA.
    rewrite (transpose_mscale d k A Hd HA).
    rewrite Hscale by (apply HT; assumption).
    apply (transpose_mscale d); [exact Hd | apply Hwf, HT, HA].
Qed.

(** The transpose of the Choi matrix of [f] is the Choi matrix of the map
    that transposes, applies [f] and transposes back. *)
Lemma choi_matrix_transposed (n : nat) (f : @mat C -> @mat C) :
  linear_map (2 ^ n) f ->
  transpose (choi_matrix n f) = choi_matrix n (transposed_map f).
Proof.
  intros Hlin. pose proof (pow2_pos n) as Hd.
  pose proof (linear_transposed_map (2 ^ n) f Hd Hlin) as Hlin'.
  pose proof (wf_choi_matrix n f) as HJ.
  assert (Hdd : (0 < 2 ^ n * 2 ^ n)%nat) by nia.
  apply (mat_eq (2 ^ n * 2 ^ n) (2 ^ n * 2 ^ n));
    [apply (wf_transpose_gen _ _ _ HJ Hdd) | apply wf_choi_matrix |].
  intros i j Hi Hj.
  rewrite (get_transpose_gen _ _ _ i j HJ Hi Hj).
  destruct (block_split _ i Hi) as (a & p & Ha & Hp & ->).
  destruct (block_split _ j Hj) as (b & q & Hb & Hq & ->).
  rewrite (get_choi_matrix Cring n f Hlin) by assumption.
  rewrite (get_choi_matrix Cring n _ Hlin') by assumption.
  unfold transposed_map. rewrite transpose_single_entry by exact Hd.
  symmetry. apply (get_transpose_gen (2 ^ n) (2 ^ n)); try assumption.
  apply (proj1 Hlin), wf_single_entry.
Qed.

(** X6. For a linear map [f], [T] of a channel that only has the function
    [f] computes and caches the Choi matrix in that channel, and returns a
    channel that transforms every operator [rho] into the transpose of
    [f] applied to the transpose of [rho]. *)
Theorem Channel_T_of_function (n : nat) (f : @mat C -> @mat C) (rho : @mat C)
    (s : @Channel C) :
  linear_map (2 ^ n) f -> wf (2 ^ n) (2 ^ n) rho ->
  "func" ∈ _types s -> "choi" ∉ _types s -> _func s = Some f -> n_qubits s = n ->
  exists t,
    Channel_T s
    = (Ok t, mkChannel (set_add "choi" (_types s)) (Some (choi_matrix n f)) (Some f) n)
    /\ _choi t = Some (transpose (choi_matrix n f))
    /\ n_qubits t = n
    /\ transform rho t = (Ok (transpose (f (transpose rho))), t).
Proof.
  intros Hlin Hrho Hin Hout Hf Hn. pose proof (pow2_pos n) as Hd.
  pose proof (wf_choi_matrix n f) as HJ.
  assert (HT : wf (4 ^ n) (4 ^ n) (transpose (choi_matrix n f))).
  { rewrite pow4_square. apply (wf_transpose_gen _ _ _ HJ). nia. }
  exists (mkChannel (set_add "choi" ∅) (Some (transpose (choi_matrix n f))) None n).
  split; [|split; [reflexivity | split; [reflexivity|]]].
  - unfold Channel_T, derived_channel, bind.
    rewrite (choi_get_func n f Hlin s Hin Hout Hf Hn).
    unfold lift. rewrite (Channel_init_qobj_pow4 n _ HT). reflexivity.
  - change (transpose (f (transpose rho))) with (transposed_map f rho).
    apply (transform_choi_path Cring n (transposed_map f)).
    + apply linear_transposed_map; assumption.
    + simpl. unfold set_add. intros Hx. apply elem_of_union in Hx as [Hx|Hx].
      * apply elem_of_singleton in Hx. discriminate.
      * exact (not_elem_of_empty _ Hx).
    + apply in_set_add.
    + simpl. rewrite (choi_matrix_transposed n f Hlin). reflexivity.
    + reflexivity.
    + exact Hrho.
Qed.

(** X7. The Choi matrix determines the map: two channels constructed from
    linear maps on the same number of qubits whose reads of [choi] give the
    same result transform every operator alike. *)
Theorem choi_determines_map (n : nat) (f g : @mat C -> @mat C) (rho : @mat C)
    (a b : @Channel C) :
  linear_map (2 ^ n) f -> linear_map (2 ^ n) g -> wf (2 ^ n) (2 ^ n) rho ->
  Channel_init (PyCallable f) (Some n) = Ok a ->
  Channel_init (PyCallable g) (Some n) = Ok b ->
  fst (choi_get a) = fst (choi_get b) ->
  f rho = g rho /\ fst (transform rho a) = fst (transform rho b).
Proof.
  intros Hf Hg Hrho Ha Hb Heq. simpl in Ha, Hb.
  injection Ha as <-. injection Hb as <-.
  assert (Hnot : "choi" ∉ set_add "func" (∅ : gset string)).
  { unfold set_add. intros Hx. apply elem_of_union in Hx as [Hx|Hx].
    - apply elem_of_singleton in Hx. discriminate.
    - exact (not_elem_of_empty _ Hx). }
  rewrite (choi_get_func n f Hf) in Heq;
    [| apply in_set_add | exact Hnot | reflexivity | reflexivity].
  rewrite (choi_get_func n g Hg) in Heq;
    [| apply in_set_add | exact Hnot | reflexivity | reflexivity].
  simpl in Heq. injection Heq as Heq.
  set (t := mkChannel (set_add "choi" ∅) (Some (choi_matrix n f)) None n).
  assert (Hout : "func" ∉ _types t).
  { simpl. unfold set_add. intros Hx. apply elem_of_union in Hx as [Hx|Hx].
    - apply elem_of_singleton in Hx. discriminate.
    - exact (not_elem_of_empty _ Hx). }
  assert (H1 : transform rho t = (Ok (f rho), t)).
  { apply (transform_choi_path Cring n f Hf);
      [exact Hout | apply in_set_add | reflexivity | reflexivity | exact Hrho]. }
  assert (H2 : transform rho t = (Ok (g rho), t)).
  { apply (transform_choi_path Cring n g Hg);
      [exact Hout | apply in_set_add | simpl; rewrite Heq; reflexivity
      | reflexivity | exact Hrho]. }
  rewrite H1 in H2. injection H2 as Hfg.
  split; [exact Hfg|].
  unfold transform, transform_with. run.
  rewrite !bool_decide_eq_true_2 by apply in_set_add. simpl. rewrite Hfg. reflexivity.
Qed.

(** X8. After [set_func] with a linear map, whatever the channel held
    before, the next read of [choi] computes the Choi matrix of the new
    function from scratch, caches it, and leaves both representations
    valid. *)
Theorem set_func_then_choi (n : nat) (f : @mat C -> @mat C) (s : @Channel C) :
  linear_map (2 ^ n) f ->
  let s1 := snd (set_func f n s) in
  choi_get s1
  = (Ok (Some (choi_matrix n f)),
     mkChannel (set_add "choi" (_types s1)) (Some (choi_matrix n f)) (Some f) n)
  /\ "func" ∈ set_add "choi" (_types s1).
Proof.
  intros Hlin s1. subst s1. rewrite set_func_state. simpl. split.
  - apply (choi_get_func n f Hlin); simpl.
    + apply in_set_add_discard. discriminate.
    + apply notin_set_discard.
    + reflexivity.
    + reflexivity.
  - apply in_set_add_other, in_set_add_discard. discriminate.
Qed.

Lemma linear_identity (d : nat) : linear_map d (fun A : @mat C => A).
Proof. split; [|split]; auto. Qed.

(** X9. The Choi matrix a channel computes from a linear function [f] on
    [n] qubits has side [4 ^ n] and, in block [(a, b)], the value of [f] on
    the single-entry operator [(a, b)].  For the identity function this is
    the unnormalised maximally entangled operator: entry 1 at row [(a, a)]
    and column [(b, b)], 0 elsewhere. *)
Theorem choi_blocks (n : nat) (f : @mat C -> @mat C) (s : @Channel C) :
  linear_map (2 ^ n) f ->
  Channel_init (PyCallable f) (Some n) = Ok s ->
  exists J s1,
    choi_get s = (Ok (Some J), s1)
    /\ wf (4 ^ n) (4 ^ n) J
    /\ (forall a b p q, (a < 2 ^ n)%nat -> (b < 2 ^ n)%nat ->
                        (p < 2 ^ n)%nat -> (q < 2 ^ n)%nat ->
          get J (a * 2 ^ n + p) (b * 2 ^ n + q)
          = get (f (single_entry (2 ^ n) a b)) p q)
    /\ ((forall A, f A = A) ->
        forall a b p q, (a < 2 ^ n)%nat -> (b < 2 ^ n)%nat ->
                        (p < 2 ^ n)%nat -> (q < 2 ^ n)%nat ->
          get J (a * 2 ^ n + p) (b * 2 ^ n + q)
          = if (p =? a)%nat && (q =? b)%nat then c1 else c0).
Proof.
  intros Hlin Hs. simpl in Hs. injection Hs as <-.
  eexists. eexists. split; [|split; [|split]].
  - apply (choi_get_func n f Hlin); [apply in_set_add | | reflexivity | reflexivity].
    simpl. unfold set_add. intros Hx. apply elem_of_union in Hx as [Hx|Hx].
    + apply elem_of_singleton in Hx. discriminate.
    + exact (not_elem_of_empty _ Hx).
  - rewrite pow4_square. apply wf_choi_matrix.
  - intros a b p q Ha Hb Hp Hq.
    apply (get_choi_matrix Cring n f Hlin); assumption.
  - intros Hid a b p q Ha Hb Hp Hq.
    rewrite (get_choi_matrix Cring n f Hlin) by assumption.
    rewrite Hid. apply get_single_entry; assumption.
Qed.

End FunctionChannels.

(* ------------------------------------------------------------------------- *)
(** * Further properties of tomography sessions *)

Section Sessions.

Variable hs_dst trace_dst if_dst : Qobj -> Qobj -> R.
Variable generate_measurement_matrix : string -> nat -> outcome rmat.
Variable RNG : Type.
Variable multinomial : nat -> rvec -> M RNG (list nat).
Variable _left_inv : rmat -> outcome rmat.
Variable minimize : (rvec -> outcome R) -> rvec -> (rvec -> R) -> outcome rvec.

Local Abbreviation experiment_ := (experiment generate_measurement_matrix RNG multinomial).
Local Abbreviation init_ := (Tomograph_init hs_dst trace_dst if_dst).

Ltac run := unfold bind, get_self, modify, ret, raise, lift, attr, draw, on_self; simpl.

(** X10. The constructor raises, and then the value error about [dst],
    exactly when [dst] is a name other than ['hs'], ['trace'] and ['if'];
    otherwise it returns a tomograph with the given state and verbosity, the
    metric named (or the function given), and none of the attributes that
    [experiment] sets. *)
Theorem Tomograph_init_outcomes (st : Qobj) (d : dst_arg) (vb : bool) :
  (init_ st d vb = Raise (ValueError msg_dst)
   <-> exists name, d = DstName name
                    /\ name <> "hs" /\ name <> "trace" /\ name <> "if")
  /\ (forall e, init_ st d vb = Raise e -> e = ValueError msg_dst)
  /\ (forall t, init_ st d vb = Ok t ->
        state t = st /\ verbose t = vb
        /\ POVM_matrix t = None /\ results t = None /\ n_measurements t = None
        /\ dst t = match d with
                   | DstFun f => f
                   | DstName name =>
                       if String.eqb name "hs" then hs_dst
                       else if String.eqb name "trace" then trace_dst
                       else if_dst
                   end).
Proof.
  destruct d as [name|f]; simpl.
  - destruct (String.eqb_spec name "hs") as [->|Hhs];
      [|destruct (String.eqb_spec name "trace") as [->|Htr];
        [|destruct (String.eqb_spec name "if") as [->|Hif]]].
    + split; [|split].
      * split; [discriminate|]. intros (nm & [= <-] & Hn & _). contradiction.
      * discriminate.
      * intros t [= <-]. simpl. auto 10.
    + split; [|split].
      * split; [discriminate|]. intros (nm & [= <-] & _ & Hn & _). contradiction.
      * discriminate.
      * intros t [= <-]. simpl. auto 10.
    + split; [|split].
      * split; [discriminate|]. intros (nm & [= <-] & _ & _ & Hn). contradiction.
      * discriminate.
      * intros t [= <-]. simpl. auto 10.
    + split; [|split].
      * split; [|reflexivity]. intros _. exists name. auto.
      * intros e [= <-]. reflexivity.
      * discriminate.
  - split; [|split].
    + split; [discriminate|]. intros (nm & Hd & _). discriminate.
    + discriminate.
    + intros t [= <-]. simpl. auto 10.
Qed.

(** X11. Before any experiment: a warm start never returns; when the
    scheme exists and the draw succeeds it raises the attribute error for
    [POVM_matrix] after the counts have been drawn, so the random generator
    has moved on while the tomograph is as before; linear inversion raises
    the attribute error for [results]; and the likelihood raises the
    attribute error for [POVM_matrix] at every point. *)
Theorem before_any_experiment (t : Tomograph) (g : RNG) :
  POVM_matrix t = None -> results t = None ->
  (forall n POVM w', experiment_ n POVM true (mkWorld t g) <> (Ok tt, w'))
  /\ (forall n POVM, self_ (snd (experiment_ n POVM true (mkWorld t g))) = t)
  /\ (forall n POVM A prod r g',
        generate_measurement_matrix POVM (dim (state t)) = Ok A ->
        matvec A (bloch (state t)) = Ok prod ->
        multinomial n (rscale (2 ^ dim (state t)) prod) g = (Ok r, g') ->
        experiment_ n POVM true (mkWorld t g)
        = (Raise (AttributeError "POVM_matrix"), mkWorld t g'))
  /\ (forall physical,
        point_estimate _left_inv minimize "lin" physical t
        = (Raise (AttributeError "results"), t))
  /\ (forall v, _neg_log_likelihood v t = (Raise (AttributeError "POVM_matrix"), t)).
Proof.
  intros HM Hr.
  assert (Hrun : forall n POVM,
            (exists e, fst (experiment_ n POVM true (mkWorld t g)) = Raise e)
            /\ self_ (snd (experiment_ n POVM true (mkWorld t g))) = t).
  { intros n POVM. unfold experiment. run.
    destruct (generate_measurement_matrix POVM _) as [A|e]; simpl; [|eauto].
    destruct (matvec A _) as [prod|e]; simpl; [|eauto].
    destruct (multinomial n _ g) as [[r|e] g']; simpl; [|eauto].
    rewrite HM. simpl. eauto. }
  split; [|split; [|split; [|split]]].
  - intros n POVM w' Heq. destruct (Hrun n POVM) as [[e He] _].
    rewrite Heq in He. discriminate.
  - intros n POVM. apply Hrun.
  - intros n POVM A prod r g' Hgen Hmv Hdraw. unfold experiment. run.
    rewrite Hgen. simpl. rewrite Hmv. simpl. rewrite Hdraw. simpl.
    rewrite HM. reflexivity.
  - intros physical. unfold point_estimate, _point_estimate_lin. run.
    rewrite Hr. reflexivity.
  - intros v. unfold _neg_log_likelihood. run. rewrite HM. reflexivity.
Qed.

(** X12. On a tomograph whose three experiment attributes are all absent or
    all present, a call of [experiment] that raises leaves the tomograph as
    it was (a scheme of another width in a warm start, for one, is refused by
    [np.vstack] before anything is stored), and a call that returns leaves
    all three attributes present. *)
Theorem experiment_all_or_nothing (n : nat) (POVM : string) (warm : bool)
    (w : World RNG) :
  coherent (self_ w) ->
  (forall e w', experiment_ n POVM warm w = (Raise e, w') -> self_ w' = self_ w)
  /\ (forall w', experiment_ n POVM warm w = (Ok tt, w') ->
        exists A r m, POVM_matrix (self_ w') = Some A
                      /\ results (self_ w') = Some r
                      /\ n_measurements (self_ w') = Some m)
  /\ coherent (self_ (snd (experiment_ n POVM warm w))).
Proof.
  intros Hco. destruct w as [[st ds vb pm rs nm] g0].
  pose proof Hco as Hco'. unfold coherent in Hco. simpl in Hco.
  assert (Hall : forall r w',
            experiment_ n POVM warm (mkWorld (mkTomograph st ds vb pm rs nm) g0) = (r, w') ->
            match r with
            | Raise _ => self_ w' = mkTomograph st ds vb pm rs nm
            | Ok _ => exists A r m, POVM_matrix (self_ w') = Some A
                                    /\ results (self_ w') = Some r
                                    /\ n_measurements (self_ w') = Some m
            end).
  { intros r w'. unfold experiment. run.
    destruct (generate_measurement_matrix POVM _) as [A|e]; simpl;
      [|intros [= <- <-]; reflexivity].
    destruct (matvec A _) as [prod|e]; simpl; [|intros [= <- <-]; reflexivity].
    destruct (multinomial n _ g0) as [[r2|e] g]; simpl;
      [|intros [= <- <-]; reflexivity].
    destruct warm.
    - destruct Hco as [(-> & -> & ->) | (M1 & r1 & m1 & Hpm & Hrs & Hnm)]; simpl in *.
      + intros [= <- <-]. reflexivity.
      + subst pm rs nm. simpl. unfold vstack.
        destruct (rncols _ =? rncols _); simpl; intros [= <- <-]; simpl;
          [eexists _, _, _; auto | reflexivity].
    - intros [= <- <-]. simpl. eexists _, _, _. auto. }
  split; [|split].
  - intros e w' Hrun. exact (Hall _ _ Hrun).
  - intros w' Hrun. exact (Hall _ _ Hrun).
  - destruct (experiment_ n POVM warm _) as [r w'] eqn:Hrun. simpl.
    specialize (Hall r w' eq_refl). destruct r as [[]|e].
    + right. exact Hall.
    + rewrite Hall. exact Hco'.
Qed.

End Sessions.

(** ** The feasibility constraint and the physical projection *)

Open Scope R_scope.

Lemma length_clip (physical : bool) (m : R) (v : rvec) :
  length (clip physical m v) = length v.
Proof.
  unfold clip. destruct physical; [|reflexivity].
  destruct (Rlt_dec m (norm2 v)); [apply length_map | reflexivity].
Qed.

Lemma pow2_ge_1 (n : nat) : 1 <= 2 ^ n.
Proof. apply pow_R1_Rle. lra. Qed.

Lemma pow4_is_square (n : nat) : 4 ^ n = 2 ^ n * 2 ^ n.
Proof. replace 4 with (2 * 2) by lra. apply Rpow_mult_distr. Qed.

Lemma sqrt_pow4 (n : nat) : sqrt (4 ^ n) = 2 ^ n.
Proof.
  rewrite pow4_is_square. apply sqrt_square.
  pose proof (pow2_ge_1 n). lra.
Qed.

Lemma INR_pow4 (n : nat) : INR (4 ^ n) = 4 ^ n.
Proof. rewrite pow_INR. replace (INR 4) with 4 by (simpl; lra). reflexivity. Qed.

Lemma is_feasible_value (n : nat) (v : rvec) :
  length v = (4 ^ n - 1)%nat ->
  _is_feasible v = 2 ^ n - 1 - 4 ^ n * rsum (map (fun x => x * x) v).
Proof.
  intros Hlen. unfold _is_feasible.
  replace (length v + 1)%nat with (4 ^ n)%nat
    by (pose proof (pow4_pos n); lia).
  rewrite INR_pow4, sqrt_pow4. reflexivity.
Qed.

(** X13. In exact arithmetic, for a vector of [4 ^ n - 1] coordinates the
    constraint handed to the optimiser has the value
    [2 ^ n - 1 - 4 ^ n * sum(v ** 2)], which is [4 ^ n] times the difference
    between the square of the bound [sqrt((2 ^ n - 1) / 4 ^ n)] used by the
    physical projection and the square of the Euclidean norm of the
    vector. *)
Theorem is_feasible_radius (n : nat) (v : rvec) :
  length v = (4 ^ n - 1)%nat ->
  _is_feasible v = 2 ^ n - 1 - 4 ^ n * rsum (map (fun x => x * x) v)
  /\ _is_feasible v = 4 ^ n * (max_norm n * max_norm n - norm2 v * norm2 v).
Proof.
  intros Hlen. split; [apply is_feasible_value, Hlen|].
  rewrite (is_feasible_value n v Hlen).
  pose proof (pow2_ge_1 n) as H2. pose proof (rsum_sq_nonneg v) as HS.
  assert (HP : 0 < 4 ^ n) by (rewrite pow4_is_square; nra).
  assert (HB : 0 <= (2 ^ n - 1) / 4 ^ n).
  { apply Rmult_le_pos; [lra|]. left. apply Rinv_0_lt_compat, HP. }
  unfold norm2, max_norm. rewrite !sqrt_sqrt by assumption.
  field. lra.
Qed.

Lemma rscale_1 (v : rvec) : rscale 1 v = v.
Proof.
  unfold rscale. rewrite <- (map_id v) at 2. apply map_ext. intros x. lra.
Qed.

(** The projection shrinks along the ray: it multiplies by a factor between
    0 and 1. *)
Lemma clip_is_scaling (physical : bool) (m : R) (v : rvec) :
  0 <= m -> exists k, 0 <= k <= 1 /\ clip physical m v = rscale k v.
Proof.
  intros Hm. unfold clip. destruct physical.
  - destruct (Rlt_dec m (norm2 v)) as [Hlt|_].
    + exists (m / norm2 v). split; [|reflexivity].
      assert (Hpos : 0 < norm2 v) by lra.
      split.
      * apply Rmult_le_pos; [exact Hm|]. left. apply Rinv_0_lt_compat, Hpos.
      * apply (Rmult_le_reg_r (norm2 v)); [exact Hpos|].
        replace (m / norm2 v * norm2 v) with m by (field; lra). lra.
    + exists 1. split; [lra | symmetry; apply rscale_1].
  - exists 1. split; [lra | symmetry; apply rscale_1].
Qed.

Section Estimates.

Variable _left_inv : rmat -> outcome rmat.
Variable minimize : (rvec -> outcome R) -> rvec -> (rvec -> R) -> outcome rvec.

Local Abbreviation point_estimate_ := (point_estimate _left_inv minimize).

Ltac run := unfold bind, get_self, modify, ret, raise, lift, attr; simpl.

(** X14. [point_estimate] and the likelihood only read the tomograph:
    whether they return or raise, the tomograph afterwards is the one
    before. *)
Theorem estimates_read_only (t : Tomograph) (method : string) (physical : bool)
    (v : rvec) :
  snd (point_estimate_ method physical t) = t
  /\ snd (_neg_log_likelihood v t) = t.
Proof.
  split.
  - unfold point_estimate. destruct (String.eqb method "lin").
    + destruct (lin_shape _left_inv t) as [r Hr]. rewrite Hr. reflexivity.
    + rewrite mle_shape. reflexivity.
  - unfold _neg_log_likelihood. run.
    destruct (POVM_matrix t) as [A|]; simpl; [|reflexivity].
    destruct (matvec A _) as [prod|e]; simpl; [|reflexivity].
    destruct (results t) as [res|]; simpl; [|reflexivity].
    destruct (broadcast res _); reflexivity.
Qed.

(** X15. Whatever the method key, when the estimates with and without
    [physical] both return, they have the same qubit count, the same number
    of coordinates and the same first coordinate, and the other coordinates
    of the physical one are those of the raw one multiplied by one factor
    between 0 and 1. *)
Theorem physical_shrinks_along_ray (t t1 t0 : Tomograph) (method : string)
    (q q0 : Qobj) :
  point_estimate_ method true t = (Ok q, t1) ->
  point_estimate_ method false t = (Ok q0, t0) ->
  dim q = dim q0
  /\ length (bloch q) = length (bloch q0)
  /\ hd 0 (bloch q) = hd 0 (bloch q0)
  /\ exists k, 0 <= k <= 1 /\ tl (bloch q) = rscale k (tl (bloch q0)).
Proof.
  pose proof (max_norm_nonneg (dim (state t))) as Hm.
  assert (Hmain : forall x rest : rvec, forall a : R,
            let b1 := a :: clip true (max_norm (dim (state t))) rest in
            let b0 := a :: clip false (max_norm (dim (state t))) rest in
            dim (Qobj_of_bloch b1) = dim (Qobj_of_bloch b0)
            /\ length (bloch (Qobj_of_bloch b1)) = length (bloch (Qobj_of_bloch b0))
            /\ hd 0 (bloch (Qobj_of_bloch b1)) = hd 0 (bloch (Qobj_of_bloch b0))
            /\ exists k, 0 <= k <= 1
                         /\ tl (bloch (Qobj_of_bloch b1))
                            = rscale k (tl (bloch (Qobj_of_bloch b0)))).
  { intros _ rest a b1 b0. subst b1 b0. unfold Qobj_of_bloch. simpl.
    rewrite !length_clip. split; [reflexivity|]. split; [reflexivity|].
    split; [reflexivity|]. rewrite clip_off.
    apply (clip_is_scaling true), Hm. }
  unfold point_estimate. destruct (String.eqb method "lin").
  - destruct (lin_shape _left_inv t) as [r Hr]. rewrite !Hr.
    destruct r as [raw|e]; [|discriminate].
    intros [= <- _] [= <- _]. destruct raw as [|a rest].
    + simpl. split; [reflexivity|]. split; [reflexivity|]. split; [reflexivity|].
      exists 1. split; [lra | reflexivity].
    + apply (Hmain rest rest a).
  - rewrite !mle_shape. destruct (minimize _ _ _) as [x|e]; [|discriminate].
    intros [= <- _] [= <- _]. apply (Hmain x x).
Qed.

End Estimates.

#[local] Arguments clip : simpl never.

(** ** Linear inversion and the counts *)

Lemma nsum_map_mul (k : nat) (r : list nat) :
  nsum (map (Nat.mul k) r) = (k * nsum r)%nat.
Proof. induction r as [|x r IH]; simpl; [lia | rewrite IH; lia]. Qed.

(** X16. Linear inversion depends on the counts through their relative
    frequencies only: multiplying every count by the same positive number
    gives the same estimate. *)
Theorem lin_depends_on_frequencies (_left_inv : rmat -> outcome rmat)
    (t : Tomograph) (r : list nat) (k : nat) (physical : bool) :
  results t = Some r -> (0 < k)%nat -> (0 < nsum r)%nat ->
  fst (_point_estimate_lin _left_inv physical (set_results (map (Nat.mul k) r) t))
  = fst (_point_estimate_lin _left_inv physical t).
Proof.
  intros Hr Hk Hs. unfold _point_estimate_lin, bind, attr, get_self, lift, ret.
  simpl. rewrite Hr.
  assert (Hfreq : map (fun x => INR x / INR (nsum (map (Nat.mul k) r)))
                      (map (Nat.mul k) r)
                  = map (fun x => INR x / INR (nsum r)) r).
  { rewrite nsum_map_mul, map_map. apply map_ext. intros x.
    rewrite !mult_INR. field.
    split; apply not_0_INR; lia. }
  rewrite Hfreq.
  destruct (POVM_matrix t) as [A|]; simpl; [|reflexivity].
  destruct (_left_inv A) as [inv|e]; simpl; [|reflexivity].
  destruct (matvec inv _) as [prod|e]; reflexivity.
Qed.

Close Scope R_scope.

(** ** The matrix stored by a warm start and the probabilities it predicts *)

Open Scope R_scope.

Lemma rsum_app (u v : rvec) : rsum (u ++ v) = rsum u + rsum v.
Proof. induction u as [|x u IH]; simpl; [lra | rewrite IH; lra]. Qed.

Lemma rsum_rscale (k : R) (v : rvec) : rsum (rscale k v) = rsum v * k.
Proof. induction v as [|x v IH]; simpl; [lra | rewrite IH; lra]. Qed.

Lemma rdot_rscale (k : R) (row v : rvec) : rdot (rscale k row) v = rdot row v * k.
Proof.
  unfold rdot. revert v. induction row as [|x row IH]; intros v; simpl; [lra|].
  destruct v as [|y v]; simpl; [lra|]. rewrite IH. lra.
Qed.

Lemma matvec_rmat_scale (k : R) (A : rmat) (v p : rvec) :
  matvec A v = Ok p -> matvec (rmat_scale k A) v = Ok (rscale k p).
Proof.
  unfold matvec. revert p. induction A as [|row A IH]; intros p; simpl.
  - intros [= <-]. reflexivity.
  - unfold rscale at 1. rewrite length_map.
    destruct (length row =? length v)%nat; simpl; [|discriminate].
    destruct (forallb _ A) eqn:Hall; [|discriminate].
    intros [= <-]. specialize (IH _ eq_refl).
    destruct (forallb _ (rmat_scale k A)); [|discriminate].
    injection IH as IH. simpl. rewrite IH.
    f_equal. f_equal. apply rdot_rscale.
Qed.

Lemma matvec_app (A B : rmat) (v p1 p2 : rvec) :
  matvec A v = Ok p1 -> matvec B v = Ok p2 -> matvec (A ++ B) v = Ok (p1 ++ p2).
Proof.
  unfold matvec. rewrite forallb_app, map_app.
  destruct (forallb _ A); [|discriminate].
  destruct (forallb _ B); [|discriminate].
  intros [= <-] [= <-]. reflexivity.
Qed.

Section MergedPredictions.

Variable generate_measurement_matrix : string -> nat -> outcome rmat.
Variable RNG : Type.
Variable multinomial : nat -> rvec -> M RNG (list nat).

Local Abbreviation experiment_ := (experiment generate_measurement_matrix RNG multinomial).

(** X17. After a warm start the stored matrix predicts, for the true state,
    the outcome values of the old matrix scaled by [m1 / (m1 + m2)] followed
    by those of the new matrix scaled by [m2 / (m1 + m2)]; when the values of
    the old and of the new matrix have the same sum, the merged values have
    that sum too. *)
Theorem warm_start_predictions (m2 : nat) (POVM : string) (w : World RNG)
    (M1 M2 : rmat) (r1 r2 : list nat) (m1 : nat) (p1 p2 : rvec) (g : RNG) :
  POVM_matrix (self_ w) = Some M1 -> results (self_ w) = Some r1 ->
  n_measurements (self_ w) = Some m1 ->
  generate_measurement_matrix POVM (dim (state (self_ w))) = Ok M2 ->
  matvec M1 (bloch (state (self_ w))) = Ok p1 ->
  matvec M2 (bloch (state (self_ w))) = Ok p2 ->
  multinomial m2 (rscale (2 ^ dim (state (self_ w))) p2) (rng w) = (Ok r2, g) ->
  rncols M1 = rncols M2 ->
  (0 < m1 + m2)%nat ->
  exists w' M',
    experiment_ m2 POVM true w = (Ok tt, w')
    /\ state (self_ w') = state (self_ w)
    /\ POVM_matrix (self_ w') = Some M'
    /\ matvec M' (bloch (state (self_ w)))
       = Ok (rscale (INR m1 / INR (m1 + m2)) p1 ++ rscale (INR m2 / INR (m1 + m2)) p2)
    /\ (rsum p1 = rsum p2 ->
        rsum (rscale (INR m1 / INR (m1 + m2)) p1 ++ rscale (INR m2 / INR (m1 + m2)) p2)
        = rsum p1).
Proof.
  intros HM Hr Hm Hgen Hp1 Hp2 Hdraw Hcols Hpos.
  eexists. eexists. split.
  { apply (experiment_warm_returns generate_measurement_matrix RNG multinomial
             m2 POVM w M1 M2 r1 r2 m1 p2 g); assumption. }
  simpl. split; [reflexivity|]. split; [reflexivity|]. split.
  - rewrite weighted_stack_eq. unfold weighted_stack.
    apply matvec_app; apply matvec_rmat_scale; assumption.
  - intros Hsum. rewrite rsum_app, !rsum_rscale, <- Hsum, plus_INR.
    field. rewrite <- plus_INR. apply not_0_INR. lia.
Qed.

End MergedPredictions.

Close Scope R_scope.

(* ------------------------------------------------------------------------- *)
(** * The further properties at concrete inputs *)

Lemma choi_ex_wf : wf (4 ^ 1) (4 ^ 1) choi_ex.
Proof. split; [reflexivity|]. repeat constructor. Qed.

Lemma func_valid_ex : "func" ∈ _types ch_func_ex.
Proof. apply in_set_add. Qed.

Lemma choi_invalid_ex : "choi" ∉ _types ch_func_ex.
Proof.
  simpl. unfold set_add. intros Hx. apply elem_of_union in Hx as [Hx|Hx].
  - apply elem_of_singleton in Hx. discriminate.
  - exact (not_elem_of_empty _ Hx).
Qed.

Lemma choi_valid_ex : "choi" ∈ _types ch_choi_ex.
Proof. apply in_set_add. Qed.

Lemma transform_after_choi_read_witness :
  "func" ∈ _types (snd (choi_get ch_func_ex))
  /\ "choi" ∈ _types (snd (choi_get ch_func_ex))
  /\ _func (snd (choi_get ch_func_ex)) = Some f_ex
  /\ n_qubits (snd (choi_get ch_func_ex)) = n_qubits ch_func_ex
  /\ transform rho_ex (snd (choi_get ch_func_ex))
     = (Ok (f_ex rho_ex), snd (choi_get ch_func_ex)).
Proof.
  exact (transform_after_choi_read ch_func_ex f_ex rho_ex func_valid_ex eq_refl).
Defined.

Lemma choi_set_then_get_witness :
  choi_set choi_ex ch_func_ex
  = (Ok tt, mkChannel (set_discard "func" (set_add "choi" (_types ch_func_ex)))
                      (Some choi_ex) (_func ch_func_ex) 1)
  /\ choi_get (mkChannel (set_discard "func" (set_add "choi" (_types ch_func_ex)))
                         (Some choi_ex) (_func ch_func_ex) 1)
     = (Ok (Some choi_ex),
        mkChannel (set_discard "func" (set_add "choi" (_types ch_func_ex)))
                  (Some choi_ex) (_func ch_func_ex) 1).
Proof.
  destruct (choi_set_then_get 1 ch_func_ex choi_ex choi_ex_wf) as (Hset & _ & _ & Hget).
  split; [exact Hset | exact Hget].
Defined.

Lemma Channel_T_twice_witness :
  Channel_T ch_choi_ex
  = (Ok (mkChannel (set_add "choi" ∅) (Some (transpose choi_ex)) None 1), ch_choi_ex)
  /\ ("func" ∉ _types (mkChannel (set_add "choi" ∅) (Some (transpose choi_ex)) None 1))
  /\ Channel_T (mkChannel (set_add "choi" ∅) (Some (transpose choi_ex)) None 1)
     = (Ok (mkChannel (set_add "choi" ∅) (Some choi_ex) None 1),
        mkChannel (set_add "choi" ∅) (Some (transpose choi_ex)) None 1).
Proof.
  exact (Channel_T_twice 1 ch_choi_ex choi_ex choi_valid_ex eq_refl choi_ex_wf).
Defined.

Lemma Channel_conj_H_twice_witness :
  Channel_conj conj_ex ch_choi_ex
  = (Ok (mkChannel (set_add "choi" ∅) (Some (mconj conj_ex choi_ex)) None 1), ch_choi_ex).
Proof.
  exact (proj1 (Channel_conj_H_twice conj_ex 1 ch_choi_ex choi_ex
                  (fun x => eq_refl) choi_valid_ex eq_refl choi_ex_wf)).
Defined.

Lemma Channel_T_of_function_witness :
  exists t,
    Channel_T ch_func_ex
    = (Ok t, mkChannel (set_add "choi" (_types ch_func_ex))
                       (Some (choi_matrix 1 f_ex)) (Some f_ex) 1)
    /\ _choi t = Some (transpose (choi_matrix 1 f_ex))
    /\ n_qubits t = 1
    /\ transform rho_ex t = (Ok (transpose (f_ex (transpose rho_ex))), t).
Proof.
  exact (Channel_T_of_function Zth 1 f_ex rho_ex ch_func_ex f_ex_linear rho_ex_wf
           func_valid_ex choi_invalid_ex eq_refl eq_refl).
Defined.

Lemma choi_determines_map_witness :
  f_ex rho_ex = f_ex rho_ex
  /\ fst (transform rho_ex ch_func_ex) = fst (transform rho_ex ch_func_ex).
Proof.
  exact (choi_determines_map Zth 1 f_ex f_ex rho_ex ch_func_ex ch_func_ex
           f_ex_linear f_ex_linear rho_ex_wf eq_refl eq_refl eq_refl).
Defined.

Lemma set_func_then_choi_witness :
  choi_get (snd (set_func f_ex 1 ch_choi_ex))
  = (Ok (Some (choi_matrix 1 f_ex)),
     mkChannel (set_add "choi" (_types (snd (set_func f_ex 1 ch_choi_ex))))
               (Some (choi_matrix 1 f_ex)) (Some f_ex) 1)
  /\ "func" ∈ set_add "choi" (_types (snd (set_func f_ex 1 ch_choi_ex))).
Proof. exact (set_func_then_choi 1 f_ex ch_choi_ex f_ex_linear). Defined.

Lemma choi_blocks_witness :
  exists J s1,
    choi_get ch_func_ex = (Ok (Some J), s1)
    /\ wf (4 ^ 1) (4 ^ 1) J
    /\ (forall a b p q, a < 2 ^ 1 -> b < 2 ^ 1 -> p < 2 ^ 1 -> q < 2 ^ 1 ->
          get J (a * 2 ^ 1 + p) (b * 2 ^ 1 + q)
          = get (f_ex (single_entry (2 ^ 1) a b)) p q)
    /\ ((forall A, f_ex A = A) ->
        forall a b p q, a < 2 ^ 1 -> b < 2 ^ 1 -> p < 2 ^ 1 -> q < 2 ^ 1 ->
          get J (a * 2 ^ 1 + p) (b * 2 ^ 1 + q)
          = if (p =? a) && (q =? b) then c1 else c0).
Proof. exact (choi_blocks Zth 1 f_ex ch_func_ex f_ex_linear eq_refl). Defined.

Lemma Tomograph_init_outcomes_witness :
  state tomo_fresh_ex = plus_state /\ verbose tomo_fresh_ex = false
  /\ POVM_matrix tomo_fresh_ex = None /\ results tomo_fresh_ex = None
  /\ n_measurements tomo_fresh_ex = None
  /\ dst tomo_fresh_ex = dst_ex.
Proof.
  exact (proj2 (proj2 (Tomograph_init_outcomes dst_ex dst_ex dst_ex
                         plus_state (DstName "hs") false))
           tomo_fresh_ex eq_refl).
Defined.

Lemma before_any_experiment_witness :
  experiment generate_ex unit multinomial_ex 3 "proj" true (mkWorld tomo_fresh_ex tt)
  = (Raise (AttributeError "POVM_matrix"), mkWorld tomo_fresh_ex tt).
Proof.
  apply (proj1 (proj2 (proj2 (before_any_experiment generate_ex unit multinomial_ex
                                left_inv_ex minimize_ex tomo_fresh_ex tt
                                eq_refl eq_refl)))
           3 "proj" proj_matrix_ex
           (map (fun row => rdot row (bloch plus_state)) proj_matrix_ex) [3; 0] tt);
    reflexivity.
Defined.

Lemma tomo_once_ex_coherent : coherent tomo_once_ex.
Proof. right. exists proj_matrix_ex, [1; 0], 1. auto. Qed.

Lemma experiment_all_or_nothing_witness :
  coherent (self_ (snd (experiment generate_ex unit multinomial_ex 2 "sic" true
                          (mkWorld tomo_once_ex tt)))).
Proof.
  exact (proj2 (proj2 (experiment_all_or_nothing generate_ex unit multinomial_ex
                         2 "sic" true (mkWorld tomo_once_ex tt)
                         tomo_once_ex_coherent))).
Defined.

Lemma is_feasible_radius_witness :
  (_is_feasible [3 / 10; 1 / 2; 0]
   = 2 ^ 1 - 1 - 4 ^ 1 * rsum (map (fun x => x * x) [3 / 10; 1 / 2; 0])
   /\ _is_feasible [3 / 10; 1 / 2; 0]
      = 4 ^ 1 * (max_norm 1 * max_norm 1
                 - norm2 [3 / 10; 1 / 2; 0] * norm2 [3 / 10; 1 / 2; 0]))%R.
Proof. exact (is_feasible_radius 1 [3 / 10; 1 / 2; 0]%R eq_refl). Defined.

Lemma physical_shrinks_along_ray_witness :
  exists k, (0 <= k <= 1)%R
    /\ tl (bloch (Qobj_of_bloch (1 / 2 ^ 1 :: clip true (max_norm 1) mle_x0)%R))
       = rscale k (tl (bloch (Qobj_of_bloch (1 / 2 ^ 1 :: clip false (max_norm 1) mle_x0)%R))).
Proof.
  exact (proj2 (proj2 (proj2
           (physical_shrinks_along_ray left_inv_ex minimize_ex
              tomo_once_ex tomo_once_ex tomo_once_ex "mle" _ _ eq_refl eq_refl)))).
Defined.

Lemma lin_depends_on_frequencies_witness :
  fst (_point_estimate_lin left_inv_ex true
         (set_results (map (Nat.mul 5) [1; 0]) tomo_once_ex))
  = fst (_point_estimate_lin left_inv_ex true tomo_once_ex).
Proof.
  apply (lin_depends_on_frequencies left_inv_ex tomo_once_ex [1; 0] 5 true).
  - reflexivity.
  - lia.
  - simpl. lia.
Defined.

Lemma warm_start_predictions_witness :
  exists w' M',
    experiment generate_ex unit multinomial_ex 1 "proj" true (mkWorld tomo_once_ex tt)
    = (Ok tt, w')
    /\ state (self_ w') = plus_state
    /\ POVM_matrix (self_ w') = Some M'
    /\ matvec M' (bloch plus_state)
       = Ok (rscale (INR 1 / INR (1 + 1))
               (map (fun row => rdot row (bloch plus_state)) proj_matrix_ex)
             ++ rscale (INR 1 / INR (1 + 1))
                  (map (fun row => rdot row (bloch plus_state)) proj_matrix_ex))
    /\ (rsum (map (fun row => rdot row (bloch plus_state)) proj_matrix_ex)
        = rsum (map (fun row => rdot row (bloch plus_state)) proj_matrix_ex) ->
        rsum (rscale (INR 1 / INR (1 + 1))
                (map (fun row => rdot row (bloch plus_state)) proj_matrix_ex)
              ++ rscale (INR 1 / INR (1 + 1))
                   (map (fun row => rdot row (bloch plus_state)) proj_matrix_ex))
        = rsum (map (fun row => rdot row (bloch plus_state)) proj_matrix_ex)).
Proof.
  apply (warm_start_predictions generate_ex unit multinomial_ex 1 "proj"
           (mkWorld tomo_once_ex tt) proj_matrix_ex proj_matrix_ex [1; 0] [1; 0] 1
           (map (fun row => rdot row (bloch plus_state)) proj_matrix_ex)
           (map (fun row => rdot row (bloch plus_state)) proj_matrix_ex) tt);
    try reflexivity.
  simpl. lia.
Defined.
